(** * daylog: the request-level security utilities

    A shallow embedding of [utils/rateLimit.ts] (the fixed-window
    [RateLimiter] and [getClientIP]) together with models of the CSRF guard,
    the base32 encoder and the TOTP engine, and the properties the
    specification states about them.

    Conventions.
    - JavaScript numbers that hold millisecond timestamps, window lengths and
      request counts are integers far below 2^53, where [number] arithmetic is
      exact; they are modelled by [Z].
    - [Date.now()] is an input: every operation that reads the clock takes the
      value it read as the argument [now]. Nothing is assumed of these values
      unless a statement says so.
    - The [Map<string, RateLimitEntry>] is a [gmap string RateLimitEntry]. An
      entry is only ever reachable through the map under one key, so the
      in-place [entry.count++] is the replacement of the value under that key. *)

From Stdlib Require Import ZArith List Ascii String Lia Bool.
From stdpp Require Import base option list strings gmap fin_maps.

Local Open Scope Z_scope.

(** ** The rate limiter *)

Module RateLimit.

(** [interface RateLimitEntry { count: number; resetTime: number }] *)
Record RateLimitEntry : Type := mkEntry {
  count : Z;
  resetTime : Z
}.

(** The object returned by [isAllowed]:
    [{ allowed: boolean; resetTime: number; remaining: number }].
    Its [resetTime] field is named [until] here, the record above owns the
    name. *)
Record Verdict : Type := mkVerdict {
  allowed : bool;
  until : Z;
  remaining : Z
}.

(** [class RateLimiter]: the private store and the constructor's parameters.
    The interval handle only matters for the timer, whose firings are the
    [cleanup] calls of a trace. *)
Record RateLimiter : Type := mkLimiter {
  store : gmap string RateLimitEntry;
  windowMs : Z;
  maxRequests : Z;
  cleanupIntervalMs : Z
}.

Definition with_store (rl : RateLimiter) (s : gmap string RateLimitEntry)
  : RateLimiter :=
  {| store := s;
     windowMs := windowMs rl;
     maxRequests := maxRequests rl;
     cleanupIntervalMs := cleanupIntervalMs rl |}.

(** [new RateLimiter(windowMs, maxRequests, cleanupIntervalMs = 60 * 1000)] *)
Definition new (w n : Z) (c : option Z) : RateLimiter :=
  {| store := ∅;
     windowMs := w;
     maxRequests := n;
     cleanupIntervalMs := default (60 * 1000) c |}.

(** [now >= entry.resetTime] *)
Definition expired (now : Z) (entry : RateLimitEntry) : bool :=
  now >=? resetTime entry.

(** [cleanup()]: walk the entries of the store and delete, from that same
    store, every key whose entry has expired. *)
Definition cleanup (now : Z) (rl : RateLimiter) : RateLimiter :=
  with_store rl
    (map_fold
       (fun key entry acc => if expired now entry then delete key acc else acc)
       (store rl) (store rl)).

(** [isAllowed(key)] *)
Definition isAllowed (now : Z) (key : string) (rl : RateLimiter)
  : Verdict * RateLimiter :=
  let fresh :=
    let newEntry := {| count := 1; resetTime := now + windowMs rl |} in
    ({| allowed := true;
        until := resetTime newEntry;
        remaining := maxRequests rl - 1 |},
     with_store rl (<[key := newEntry]> (store rl))) in
  match store rl !! key with
  | None => fresh
  | Some entry =>
      if expired now entry then fresh
      else if count entry >=? maxRequests rl then
        ({| allowed := false; until := resetTime entry; remaining := 0 |}, rl)
      else
        let entry' := {| count := count entry + 1;
                         resetTime := resetTime entry |} in
        ({| allowed := true;
            until := resetTime entry';
            remaining := maxRequests rl - count entry' |},
         with_store rl (<[key := entry']> (store rl)))
  end.

(** [reset(key)] *)
Definition reset (key : string) (rl : RateLimiter) : RateLimiter :=
  with_store rl (delete key (store rl)).

(** [destroy()]: the interval is cleared and so is the store. *)
Definition destroy (rl : RateLimiter) : RateLimiter :=
  with_store rl ∅.

(** A call made on a limiter, with the clock value it reads. *)
Inductive Call : Type :=
  | CallIsAllowed (now : Z) (key : string)
  | CallReset (key : string)
  | CallCleanup (now : Z)
  | CallDestroy.

(** One call: the verdict, if the call returns one, and the limiter after. *)
Definition call (c : Call) (rl : RateLimiter) : option Verdict * RateLimiter :=
  match c with
  | CallIsAllowed now key =>
      let '(v, rl') := isAllowed now key rl in (Some v, rl')
  | CallReset key => (None, reset key rl)
  | CallCleanup now => (None, cleanup now rl)
  | CallDestroy => (None, destroy rl)
  end.

(** A sequence of calls, in order: what each returned, and the limiter after
    the last one. *)
Fixpoint calls (cs : list Call) (rl : RateLimiter)
  : list (option Verdict) * RateLimiter :=
  match cs with
  | [] => ([], rl)
  | c :: cs' =>
      let '(v, rl1) := call c rl in
      let '(vs, rl2) := calls cs' rl1 in
      (v :: vs, rl2)
  end.

(** The verdicts that the [isAllowed] calls for [key] return during a
    sequence of calls, in order. *)
Fixpoint verdictsFor (key : string) (cs : list Call) (rl : RateLimiter)
  : list Verdict :=
  match cs with
  | [] => []
  | c :: cs' =>
      let '(v, rl1) := call c rl in
      let rest := verdictsFor key cs' rl1 in
      match c, v with
      | CallIsAllowed _ k, Some verdict =>
          if String.eqb k key then verdict :: rest else rest
      | _, _ => rest
      end
  end.

Definition isCallFor (key : string) (c : Call) : bool :=
  match c with
  | CallIsAllowed _ k => String.eqb k key
  | _ => false
  end.

(** The calls that leave the window of [key], which ends at [windowEnd],
    running: a request for [key] or a sweep while the clock is before
    [windowEnd], and any request or reset for another key. *)
Definition insideWindow (key : string) (windowEnd : Z) (c : Call) : Prop :=
  match c with
  | CallIsAllowed now k => k = key -> now < windowEnd
  | CallReset k => k <> key
  | CallCleanup now => now < windowEnd
  | CallDestroy => False
  end.

(** The calls that read the clock at [t] or later. *)
Definition notBefore (t : Z) (c : Call) : Prop :=
  match c with
  | CallIsAllowed now _ => t <= now
  | CallCleanup now => t <= now
  | CallReset _ | CallDestroy => True
  end.

(** The number of [isAllowed] calls for [key] in a sequence of calls. *)
Fixpoint requestsFor (key : string) (cs : list Call) : nat :=
  match cs with
  | [] => O
  | c :: cs' => ((if isCallFor key c then 1 else 0) + requestsFor key cs')%nat
  end.

(** The verdict of the [i]-th request of a window that ends at [windowEnd],
    under the budget [n], and the verdict of a request over the budget. *)
Definition granted (windowEnd n i : Z) : Verdict :=
  {| allowed := true; until := windowEnd; remaining := n - i |}.

Definition refused (windowEnd : Z) : Verdict :=
  {| allowed := false; until := windowEnd; remaining := 0 |}.

(** Every counter in the store is between 1 and the budget. *)
Definition countsInBudget (rl : RateLimiter) : Prop :=
  forall key entry,
    store rl !! key = Some entry -> 1 <= count entry <= maxRequests rl.

(** [swept] is [full] without some entries that had expired by [t]. *)
Definition sweptBy (t : Z) (full swept : RateLimiter) : Prop :=
  windowMs swept = windowMs full /\
  maxRequests swept = maxRequests full /\
  forall key,
    store swept !! key = store full !! key \/
    (store swept !! key = None /\
     exists entry, store full !! key = Some entry /\ resetTime entry <= t).

End RateLimit.

(** ** Strings as JavaScript sees them

    Header values are byte strings: a [string] here is a sequence of code
    units 0..255, one [ascii] each. *)

Module JsString.

(** The white space [String.prototype.trim] strips, among code units below
    256: TAB, LF, VT, FF, CR, SPACE and NO-BREAK SPACE. *)
Definition isWhiteSpace (c : ascii) : bool :=
  let n := nat_of_ascii c in
  ((9 <=? n)%nat && (n <=? 13)%nat) || (n =? 32)%nat || (n =? 160)%nat.

Fixpoint trimStart (s : string) : string :=
  match s with
  | EmptyString => EmptyString
  | String c s' => if isWhiteSpace c then trimStart s' else s
  end.

Fixpoint trimEnd (s : string) : string :=
  match s with
  | EmptyString => EmptyString
  | String c s' =>
      match trimEnd s' with
      | EmptyString => if isWhiteSpace c then EmptyString else String c EmptyString
      | t => String c t
      end
  end.

(** [s.trim()] *)
Definition trim (s : string) : string := trimEnd (trimStart s).

(** [s.split(sep)] for a separator of one character: the pieces between the
    separators, in order; a string without separator is its only piece. *)
Fixpoint split (sep : ascii) (s : string) : list string :=
  match s with
  | EmptyString => [EmptyString]
  | String c s' =>
      if Ascii.eqb c sep then EmptyString :: split sep s'
      else match split sep s' with
           | [] => [String c EmptyString]
           | piece :: pieces => String c piece :: pieces
           end
  end.

(** Whether the character occurs in the string. *)
Fixpoint hasChar (c : ascii) (s : string) : bool :=
  match s with
  | EmptyString => false
  | String c' s' => Ascii.eqb c' c || hasChar c s'
  end.

(** A string in a condition: the empty string is falsy. *)
Definition truthy (s : string) : bool :=
  match s with EmptyString => false | String _ _ => true end.

(** The character of a decimal digit. *)
Definition digitChar (d : Z) : ascii := ascii_of_nat (48 + Z.to_nat d).

(** [n.toString()] for an integer [n >= 0], least significant digit first
    into the accumulator. The number of digits of [n] is at most
    [log2 n + 1], which bounds the recursion. *)
Fixpoint digitsInto (fuel : nat) (n : Z) (acc : string) : string :=
  match fuel with
  | O => acc
  | S fuel' =>
      let acc' := String (digitChar (n mod 10)) acc in
      if n <? 10 then acc' else digitsInto fuel' (n / 10) acc'
  end.

Definition toString (n : Z) : string :=
  digitsInto (S (Z.to_nat (Z.log2 n))) n EmptyString.

Fixpoint repeatChar (n : nat) (c : ascii) : string :=
  match n with
  | O => EmptyString
  | S n' => String c (repeatChar n' c)
  end.

(** [s.padStart(len, c)] for a pad of one character. *)
Definition padStart (len : nat) (c : ascii) (s : string) : string :=
  (repeatChar (len - String.length s) c ++ s)%string.

Definition isDigit (c : ascii) : bool :=
  let n := nat_of_ascii c in (48 <=? n)%nat && (n <=? 57)%nat.

(** The number that a string of decimal digits writes. *)
Fixpoint decimalValue (s : string) : Z :=
  match s with
  | EmptyString => 0
  | String c s' =>
      (Z.of_nat (nat_of_ascii c) - 48) * 10 ^ Z.of_nat (String.length s')
      + decimalValue s'
  end.

Fixpoint allChars (p : ascii -> bool) (s : string) : bool :=
  match s with
  | EmptyString => true
  | String c s' => p c && allChars p s'
  end.

End JsString.

(** ** The client address of a request *)

Module ClientIP.

(** The part of a [NextRequest] that [getClientIP] reads: its headers, by
    lower-case name. [headers.get(name)] is the lookup, [null] being [None]. *)
Record NextRequest : Type := mkRequest {
  headers : gmap string string
}.

Definition get (request : NextRequest) (name : string) : option string :=
  headers request !! name.

(** What an [if (value)] on the result of [headers.get] lets through. *)
Definition whenTruthy (value : option string) : option string :=
  match value with
  | Some v => if JsString.truthy v then Some v else None
  | None => None
  end.

(** [getClientIP(request)]. [None] is the [TypeError] of calling [trim] on an
    [undefined] first piece. *)
Definition getClientIP (request : NextRequest) : option string :=
  let forwardedFor := get request "x-forwarded-for" in
  let realIP := get request "x-real-ip" in
  let cfConnectingIP := get request "cf-connecting-ip" in
  match whenTruthy forwardedFor with
  | Some v => JsString.trim <$> (JsString.split "," v !! 0%nat)
  | None =>
      match whenTruthy realIP with
      | Some v => Some (JsString.trim v)
      | None =>
          match whenTruthy cfConnectingIP with
          | Some v => Some (JsString.trim v)
          | None => Some "unknown"%string
          end
      end
  end.

(** The reading of the specification in which a header that is present, with
    whatever value, is the one that decides. *)
Definition getClientIP_whenPresent (request : NextRequest) : option string :=
  match get request "x-forwarded-for" with
  | Some v => JsString.trim <$> (JsString.split "," v !! 0%nat)
  | None =>
      match get request "x-real-ip" with
      | Some v => Some (JsString.trim v)
      | None =>
          match get request "cf-connecting-ip" with
          | Some v => Some (JsString.trim v)
          | None => Some "unknown"%string
          end
      end
  end.

End ClientIP.

(** ** The CSRF guard *)

Module Csrf.

Section Guard.

(** The two fixed names, exported by [utils/csrf.ts]; their values are not
    among the sources and nothing below depends on them. *)
Variable CSRF_TOKEN_NAME : string.
Variable CSRF_HEADER_NAME : string.

(** Modelled from the spec: [getCSRFToken] of [utils/csrf.ts], which is not
    among the sources. "Read the token back from the cookie store; returns
    the stored value or an absent-value signal if unset." The cookie store is
    the map from cookie names to values. *)
Definition getCSRFToken (cookies : gmap string string) : option string :=
  cookies !! CSRF_TOKEN_NAME.

(** Modelled from the spec: what counts as a value that was found by
    [validateCSRFToken], of [utils/csrf.ts]: one that is present and not
    empty, "false for any mismatch, absence, or empty value". *)
Definition found (value : option string) : option string :=
  match value with
  | Some v => if JsString.truthy v then Some v else None
  | None => None
  end.

(** Modelled from the spec: the candidate token of [validateCSRFToken],
    "extract a candidate token from (a) a dedicated request header, else (b) a
    field of the same name in supplied form data". The form data is optional,
    as the second argument of [validateCSRFToken] is. *)
Definition candidateToken (request : ClientIP.NextRequest)
    (formData : option (gmap string string)) : option string :=
  match found (ClientIP.get request CSRF_HEADER_NAME) with
  | Some t => Some t
  | None => found (formData ≫= fun fields => fields !! CSRF_TOKEN_NAME)
  end.

(** Modelled from the spec: [validateCSRFToken] of [utils/csrf.ts], which is
    not among the sources (only its tests are). "Return true only if: a cookie
    token exists, a candidate token was found, and the two are exactly equal";
    "any missing piece (no cookie, no header/field, mismatch) yields false,
    never an exception"; "false for any mismatch, absence, or empty value". *)
Definition validateCSRFToken (cookies : gmap string string)
    (request : ClientIP.NextRequest) (formData : option (gmap string string))
  : bool :=
  match found (getCSRFToken cookies), candidateToken request formData with
  | Some cookieToken, Some token => String.eqb cookieToken token
  | _, _ => false
  end.

End Guard.

End Csrf.

(** ** Bytes

    A [Uint8Array] is a list of integers in 0..255. *)

Module Bytes.

(** The [n] low bytes of [x], most significant first. *)
Definition bigEndian (n : nat) (x : Z) : list Z :=
  map (fun i => Z.land (Z.shiftr x (8 * Z.of_nat i)) 255) (rev (seq 0 n)).

(** The value of a sequence of bytes, most significant first. *)
Definition fromBigEndian (bs : list Z) : Z :=
  fold_left (fun acc b => Z.lor (Z.shiftl acc 8) (Z.land b 255)) bs 0.

(** The bits of the [n] low positions of [x], most significant first. *)
Definition bitsOf (n : nat) (x : Z) : list bool :=
  map (fun i => Z.testbit x (Z.of_nat i)) (rev (seq 0 n)).

Definition fromBits (bs : list bool) : Z :=
  fold_left (fun acc (b : bool) => 2 * acc + (if b then 1 else 0)) bs 0.

(** Consecutive pieces of [n] elements; the last one may be shorter. *)
Fixpoint chunksFuel {A : Type} (fuel n : nat) (l : list A) : list (list A) :=
  match fuel, l with
  | _, [] => []
  | O, _ => []
  | S fuel', _ => firstn n l :: chunksFuel fuel' n (skipn n l)
  end.

Definition chunks {A : Type} (n : nat) (l : list A) : list (list A) :=
  chunksFuel (length l) n l.

Definition ofString (s : string) : list Z :=
  map (fun c => Z.of_nat (nat_of_ascii c)) (list_ascii_of_string s).

End Bytes.

(** ** Base32 *)

Module Base32.

(** Modelled from the spec: the alphabet of [encodeBase32] of
    [utils/crypto.ts], which is not among the sources: the base32 alphabet in
    lower case, as in the known vector ["nbswy3dp"]. *)
Definition alphabet : string := "abcdefghijklmnopqrstuvwxyz234567".

(** Modelled from the spec: the letter of a group of five bits in
    [encodeBase32]. *)
Definition charOf (v : Z) : ascii :=
  match String.get (Z.to_nat v) alphabet with
  | Some c => c
  | None => "="%char
  end.

(** Modelled from the spec: [encodeBase32] of [utils/crypto.ts], which is not
    among the sources (only its test is): the bits of the bytes, in order, cut
    into groups of five, the last group filled with zero bits, each group
    written as its letter; no padding character is added. *)
Definition encodeBase32 (bytes : list Z) : string :=
  string_of_list_ascii
    (map (fun group => charOf (Bytes.fromBits (group ++ repeat false (5 - length group))))
       (Bytes.chunks 5 (flat_map (Bytes.bitsOf 8) bytes))).

(** Modelled from the spec: the value of a base32 letter when a secret is
    decoded, in either case: the spec shows secrets in upper case and the
    encoder's output in lower case. *)
Definition valueOf (c : ascii) : option Z :=
  let n := Z.of_nat (nat_of_ascii c) in
  if (97 <=? n) && (n <=? 122) then Some (n - 97)
  else if (65 <=? n) && (n <=? 90) then Some (n - 65)
  else if (50 <=? n) && (n <=? 55) then Some (n - 24)
  else None.

(** Modelled from the spec: the decoding of a base32 secret "to raw bytes"
    in [utils/totp.ts], which is not among the sources: every letter gives
    five bits, every full group of eight bits a byte; a character outside the
    alphabet makes the input malformed ([None]). *)
Definition decodeBase32 (s : string) : option (list Z) :=
  values ← mapM valueOf (list_ascii_of_string s);
  Some (map Bytes.fromBits
          (filter (fun group => length group = 8%nat)
             (Bytes.chunks 8 (flat_map (Bytes.bitsOf 5) values)))).

End Base32.

(** ** SHA-1 and HMAC

    The keyed hash of the published one-time password algorithm. It is a
    primitive of the platform, not code of the repository, written out here
    (FIPS 180 and RFC 2104) so that the engine can be run on concrete inputs;
    the properties of the engine that hold for every keyed hash are stated
    for every keyed hash. *)

Module Sha1.

Definition w32 (x : Z) : Z := Z.land x 4294967295.

Definition add32 (x y : Z) : Z := w32 (x + y).

Definition rotl (n x : Z) : Z :=
  w32 (Z.lor (Z.shiftl x n) (Z.shiftr x (32 - n))).

Definition not32 (x : Z) : Z := Z.lxor x 4294967295.

(** The message, the bit 1, zero bits up to 56 modulo 64 bytes, and the
    length of the message in bits on 8 bytes. *)
Definition pad (msg : list Z) : list Z :=
  let len := Z.of_nat (length msg) in
  msg ++ [128] ++ repeat 0 (Z.to_nat ((55 - len) mod 64))
      ++ Bytes.bigEndian 8 (8 * len).

(** The 80 words of the schedule of a block, last word first. *)
Fixpoint schedule (n : nat) (ws : list Z) : list Z :=
  match n with
  | O => ws
  | S n' =>
      let w := rotl 1 (Z.lxor (Z.lxor (nth 2 ws 0) (nth 7 ws 0))
                              (Z.lxor (nth 13 ws 0) (nth 15 ws 0))) in
      schedule n' (w :: ws)
  end.

Definition f (t : nat) (b c d : Z) : Z :=
  if (t <? 20)%nat then Z.lor (Z.land b c) (Z.land (not32 b) d)
  else if (t <? 40)%nat then Z.lxor (Z.lxor b c) d
  else if (t <? 60)%nat then
    Z.lor (Z.lor (Z.land b c) (Z.land b d)) (Z.land c d)
  else Z.lxor (Z.lxor b c) d.

Definition k (t : nat) : Z :=
  if (t <? 20)%nat then 1518500249
  else if (t <? 40)%nat then 1859775393
  else if (t <? 60)%nat then 2400959708
  else 3395469782.

Record State : Type := mkState { ha : Z; hb : Z; hc : Z; hd : Z; he : Z }.

Definition round (s : State) (tw : nat * Z) : State :=
  let '(t, w) := tw in
  let temp :=
    add32 (add32 (add32 (add32 (rotl 5 (ha s)) (f t (hb s) (hc s) (hd s)))
                        (he s)) (k t)) w in
  {| ha := temp; hb := ha s; hc := rotl 30 (hb s); hd := hc s; he := hd s |}.

Definition compress (h : State) (block : list Z) : State :=
  let ws := rev (schedule 64 (rev (map Bytes.fromBigEndian (Bytes.chunks 4 block)))) in
  let s := fold_left round (combine (seq 0 80) ws) h in
  {| ha := add32 (ha h) (ha s); hb := add32 (hb h) (hb s);
     hc := add32 (hc h) (hc s); hd := add32 (hd h) (hd s);
     he := add32 (he h) (he s) |}.

Definition initial : State :=
  {| ha := 1732584193; hb := 4023233417; hc := 2562383102;
     hd := 271733878; he := 3285377520 |}.

Definition sha1 (msg : list Z) : list Z :=
  let h := fold_left compress (Bytes.chunks 64 (pad msg)) initial in
  flat_map (Bytes.bigEndian 4) [ha h; hb h; hc h; hd h; he h].

End Sha1.

Module Hmac.

Definition blockSize : nat := 64.

(** Modelled from the spec: the keyed hash of [generateTOTP], "HMAC with a
    cryptographic hash function", with the hash of the published standard. *)
Definition hmacSha1 (key msg : list Z) : list Z :=
  let key0 := if (blockSize <? length key)%nat then Sha1.sha1 key else key in
  let key1 := key0 ++ repeat 0 (blockSize - length key0) in
  let ipad := map (fun b => Z.lxor b 54) key1 in
  let opad := map (fun b => Z.lxor b 92) key1 in
  Sha1.sha1 (opad ++ Sha1.sha1 (ipad ++ msg)).

End Hmac.

(** ** The TOTP engine *)

Module Totp.

Definition stepSeconds : Z := 30.

Definition digits : nat := 6.

Section Engine.

(** The keyed hash: key, then message, to the hash. *)
Variable hmac : list Z -> list Z -> list Z.

(** Modelled from the spec: the dynamic truncation of [generateTOTP], "take
    a 4-byte window selected by the low nibble of the hash's final byte, mask
    off the top bit, interpret as a big-endian 31-bit integer". *)
Definition truncate (hash : list Z) : Z :=
  let offset := Z.to_nat (Z.land (List.last hash 0) 15) in
  Z.lor (Z.shiftl (Z.land (nth offset hash 0) 127) 24)
    (Z.lor (Z.shiftl (Z.land (nth (offset + 1) hash 0) 255) 16)
       (Z.lor (Z.shiftl (Z.land (nth (offset + 2) hash 0) 255) 8)
          (Z.land (nth (offset + 3) hash 0) 255))).

(** Modelled from the spec: the code of a raw key at a time counter, "compute
    a keyed hash over the 8-byte big-endian encoding of T, keyed by the raw
    secret; apply dynamic truncation; reduce modulo 10^6; format as a
    zero-padded 6-digit decimal string". *)
Definition codeAt (key : list Z) (counter : Z) : string :=
  let hash := hmac key (Bytes.bigEndian 8 counter) in
  JsString.padStart digits "0"
    (JsString.toString (truncate hash mod 10 ^ Z.of_nat digits)).

(** Modelled from the spec: the time counter,
    "T = floor(unixSeconds(time ?? now) / stepSeconds)". Times are in whole
    seconds since the epoch. *)
Definition counterAt (time : Z) : Z := time / stepSeconds.

(** Modelled from the spec: [generateTOTP(secret, time?)] of [utils/totp.ts],
    which is not among the sources (only its tests are). [now] is the clock
    value used when no time is given; [None] is the invalid-input error of a
    secret that is not base32. *)
Definition generateTOTP (now : Z) (secret : string) (time : option Z)
  : option string :=
  key ← Base32.decodeBase32 secret;
  Some (codeAt key (counterAt (default now time))).

(** Modelled from the spec: the times that [validateTOTP] tries,
    "{now - k step, ..., now, ..., now + k step}". *)
Definition driftTimes (now k : Z) : list Z :=
  map (fun i => now + i * stepSeconds) (seqZ (- k) (2 * k + 1)).

(** Modelled from the spec: [validateTOTP(secret, code, window?)] of
    [utils/totp.ts], which is not among the sources (only its test is):
    "accept the code as valid if it matches generateCode(secret, t) for any t
    in {now - k step, ..., now, ..., now + k step} for a small tolerance k
    (default 1)"; "reject (return false) for any non-matching code, malformed
    input, or empty code, never throws". *)
Definition validateTOTP (now : Z) (secret code : string) (window : option Z)
  : bool :=
  existsb
    (fun t =>
       match generateTOTP now secret (Some t) with
       | Some expected => String.eqb expected code
       | None => false
       end)
    (driftTimes now (default 1 window)).

End Engine.

End Totp.

(** ** Sequences of calls on the rate limiter *)

Module RateLimitTraces.

Import RateLimit.

(** The calls that can reach the entry of [key]: the requests and resets for
    [key], and every sweep and teardown. *)
Definition concerns (key : string) (c : Call) : bool :=
  match c with
  | CallIsAllowed _ k => String.eqb k key
  | CallReset k => String.eqb k key
  | CallCleanup _ | CallDestroy => true
  end.

(** Two limiters with the same window and budget and the same entry, or
    none, under [key]. *)
Definition agreeAt (key : string) (rl1 rl2 : RateLimiter) : Prop :=
  windowMs rl1 = windowMs rl2 /\
  maxRequests rl1 = maxRequests rl2 /\
  store rl1 !! key = store rl2 !! key.

(** The calls of a time span for [key]: requests for [key] with the clock in
    [[from, to)], sweeps with the clock before [to], and any request or reset
    for another key. *)
Definition inSpan (key : string) (from to : Z) (c : Call) : Prop :=
  match c with
  | CallIsAllowed now k => k = key -> from <= now < to
  | CallReset k => k <> key
  | CallCleanup now => now < to
  | CallDestroy => False
  end.

(** The number of verdicts that allow the request. *)
Definition admitted (vs : list Verdict) : nat :=
  length (List.filter allowed vs).

(** What a key can still be granted in a span that ends at [to]: what is left
    of the budget of its entry, and a whole budget more if the entry expires
    before the end of the span. *)
Definition budgetLeft (key : string) (to : Z) (rl : RateLimiter) : Z :=
  match store rl !! key with
  | Some entry =>
      if resetTime entry <? to
      then maxRequests rl - count entry + maxRequests rl
      else maxRequests rl - count entry
  | None => maxRequests rl
  end.

End RateLimitTraces.

(** ** Numbers in headers *)

Module JsNumber.

(** [n.toString()] for an integer. *)
Definition numberToString (n : Z) : string :=
  if n <? 0 then String "-" (JsString.toString (- n)) else JsString.toString n.

(** The integer that a decimal string writes, with its sign. *)
Definition integerOf (s : string) : Z :=
  match s with
  | String "-" digits => - JsString.decimalValue digits
  | _ => JsString.decimalValue s
  end.

(** [Math.ceil(x / d)] for integers [x] and [d > 0]: in the range of the
    timestamps the floating-point quotient rounds to the same integer. *)
Definition ceilDiv (x d : Z) : Z := - ((- x) / d).

End JsNumber.

(** ** The rate limiter in front of a route *)

Module RateLimitHttp.

Import RateLimit.

(** The part of a [NextRequest] that the middleware reads: what
    [getClientIP] reads, and [nextUrl.pathname]. *)
Record RoutedRequest : Type := mkRouted {
  asRequest : ClientIP.NextRequest;
  pathname : string
}.

(** The key of the middleware, [`${ip}:${request.nextUrl.pathname}`]. *)
Definition limiterKey (ip path : string) : string :=
  (ip ++ ":" ++ path)%string.

(** [createRateLimitMiddleware(rateLimiter)(request)]: the object the
    returned function resolves to, and the limiter after the call; [None]
    when [getClientIP] throws, the limiter being untouched then. *)
Definition createRateLimitMiddleware (now : Z) (request : RoutedRequest)
    (rateLimiter : RateLimiter) : option (Verdict * RateLimiter) :=
  ip ← ClientIP.getClientIP (asRequest request);
  let key := limiterKey ip (pathname request) in
  let '(result, rateLimiter') := isAllowed now key rateLimiter in
  Some
    (if negb (allowed result) then
       {| allowed := false; until := until result;
          remaining := remaining result |}
     else
       {| allowed := true; until := until result;
          remaining := remaining result |},
     rateLimiter').

(** The object returned by [getRateLimitHeaders]. *)
Record RateLimitHeaders : Type := mkHeaders {
  xRateLimitLimit : string;
  xRateLimitRemaining : string;
  xRateLimitReset : string;
  retryAfter : string
}.

Section Headers.

(** [SECURITY_CONFIG.RATE_LIMIT.GENERAL.MAX_REQUESTS], of a configuration
    module that is imported, and [new Date(ms).toUTCString()] of the
    platform. *)
Variable GENERAL_MAX_REQUESTS : Z.
Variable toUTCString : Z -> string.

(** [limit || SECURITY_CONFIG.RATE_LIMIT.GENERAL.MAX_REQUESTS]: a limit that
    is not given, or is [0], is falsy. *)
Definition limitValue (limit : option Z) : Z :=
  match limit with
  | Some l => if l =? 0 then GENERAL_MAX_REQUESTS else l
  | None => GENERAL_MAX_REQUESTS
  end.

(** [getRateLimitHeaders(resetTime, remaining, limit?)] *)
Definition getRateLimitHeaders (now resetTime remaining : Z) (limit : option Z)
  : RateLimitHeaders :=
  {| xRateLimitLimit := JsNumber.numberToString (limitValue limit);
     xRateLimitRemaining := JsNumber.numberToString remaining;
     xRateLimitReset := toUTCString resetTime;
     retryAfter :=
       JsNumber.numberToString (JsNumber.ceilDiv (resetTime - now) 1000) |}.

End Headers.

End RateLimitHttp.

(** ** Files from data URLs ([utils/storage.ts])

    The strings here are data URLs: code units below 256, one [ascii] each. *)

Module Storage.

(** [\w]: a letter, a digit or the underscore. *)
Definition isWordChar (c : ascii) : bool :=
  let n := nat_of_ascii c in
  ((48 <=? n)%nat && (n <=? 57)%nat) || ((65 <=? n)%nat && (n <=? 90)%nat)
  || ((97 <=? n)%nat && (n <=? 122)%nat) || (n =? 95)%nat.

(** The class [[\w-+\d.]]: a word character, a hyphen, a plus sign, a digit
    or a dot. *)
Definition isSubtypeChar (c : ascii) : bool :=
  isWordChar c || Ascii.eqb c "-" || Ascii.eqb c "+" || JsString.isDigit c
  || Ascii.eqb c ".".

(** What [.] matches: any character but a line terminator (LF and CR, among
    the code units below 256). *)
Definition isDot (c : ascii) : bool :=
  let n := nat_of_ascii c in negb ((n =? 10)%nat || (n =? 13)%nat).

(** The longest prefix of characters of the class, and the rest. *)
Fixpoint span (p : ascii -> bool) (s : string) : string * string :=
  match s with
  | EmptyString => (EmptyString, EmptyString)
  | String c s' =>
      if p c then let '(taken, rest) := span p s' in (String c taken, rest)
      else (EmptyString, s)
  end.

(** The rest of a string after a literal prefix. *)
Fixpoint stripPrefix (pre s : string) : option string :=
  match pre, s with
  | EmptyString, _ => Some s
  | String a pre', String b s' =>
      if Ascii.eqb a b then stripPrefix pre' s' else None
  | String _ _, EmptyString => None
  end.

(** The array that [match] returns: the two groups. *)
Record Match : Type := mkMatch {
  group1 : string;
  group2 : string
}.

(** The end of both patterns, [;base64,(.+)$]: the literal, then at least
    one character, all of them matched by [.], up to the end of the string. *)
Definition matchData (mime rest : string) : option Match :=
  data ← stripPrefix ";base64," rest;
  if JsString.truthy data && JsString.allChars isDot data
  then Some {| group1 := mime; group2 := data |}
  else None.

(** [base64String.match(/^data:(image\/\w+);base64,(.+)$/)]. The character
    after a group [\w+] has to be [;], which is not in the class, so the
    group is the longest run of word characters: there is one way to match. *)
Definition matchImage (s : string) : option Match :=
  s1 ← stripPrefix "data:" s;
  s2 ← stripPrefix "image/" s1;
  let '(sub, rest) := span isWordChar s2 in
  if JsString.truthy sub then matchData ("image/" ++ sub) rest else None.

(** [base64String.match(/^data:(\w+\/[\w-+\d.]+);base64,(.+)$/)]. Again each
    run is followed by a character outside its class ([/], then [;]). *)
Definition matchGeneral (s : string) : option Match :=
  s1 ← stripPrefix "data:" s;
  let '(type, rest1) := span isWordChar s1 in
  if JsString.truthy type then
    rest2 ← stripPrefix "/" rest1;
    let '(sub, rest3) := span isSubtypeChar rest2 in
    if JsString.truthy sub then matchData (type ++ "/" ++ sub) rest3 else None
  else None.

(** [generateRandomFilename(extension)], with the value of
    [crypto.randomUUID()]. *)
Definition generateRandomFilename (uuid extension : string) : string :=
  (uuid ++ "." ++ extension)%string.

(** A value in a template literal: [undefined] is written out. *)
Definition inTemplate (value : option string) : string :=
  default "undefined"%string value.

(** The object returned by [generateFileFromBase64]; [ext] is [None] when it
    is [undefined]. *)
Record GeneratedFile : Type := mkFile {
  fileName : string;
  buffer : list Z;
  ext : option string;
  contentLength : nat
}.

Section Generate.

(** [Buffer.from(data, 'base64')], of the platform. *)
Variable bufferFromBase64 : string -> list Z.

(** [generateFileFromBase64(base64String)], with the value of
    [crypto.randomUUID()]; [inl] is the message of the [Error] thrown. *)
Definition generateFileFromBase64 (uuid base64String : string)
  : string + GeneratedFile :=
  let matches :=
    match matchImage base64String with
    | Some m => Some m
    | None => matchGeneral base64String
    end in
  match matches with
  | None => inl "Invalid Base64 format"%string
  | Some m =>
      let ext := JsString.split "/" (group1 m) !! 1%nat in
      let buffer := bufferFromBase64 (group2 m) in
      let fileName := generateRandomFilename uuid (inTemplate ext) in
      inr {| fileName := fileName; buffer := buffer; ext := ext;
             contentLength := length buffer |}
  end.

End Generate.

(** Whether a string is empty or starts outside a class. *)
Definition stopsAt (p : ascii -> bool) (s : string) : Prop :=
  match s with
  | String c _ => p c = false
  | EmptyString => True
  end.

(** A media type that the general pattern takes: a type of word characters
    and a subtype of characters of the subtype class, both not empty. *)
Definition mediaType (type sub : string) : Prop :=
  type <> EmptyString /\ JsString.allChars isWordChar type = true /\
  sub <> EmptyString /\ JsString.allChars isSubtypeChar sub = true.

(** The data URL of a media type and of data in base64. *)
Definition dataUrl (type sub data : string) : string :=
  ("data:" ++ type ++ "/" ++ sub ++ ";base64," ++ data)%string.

(** The data that [(.+)$] takes: not empty, and without line terminator. *)
Definition dataOk (data : string) : bool :=
  JsString.truthy data && JsString.allChars isDot data.

End Storage.

(** * Properties *)

(** ** The rate limiter *)

Module RateLimitFacts.

Import RateLimit.

Implicit Types (rl : RateLimiter) (key : string) (entry : RateLimitEntry).

#[local] Arguments cleanup : simpl never.
#[local] Arguments isAllowed : simpl never.

(** The two cases of a lookup after an insertion or a deletion at [k]. *)
Ltac by_key k key :=
  destruct (decide (k = key)) as [-> | ?];
  [ rewrite ?lookup_insert_eq, ?lookup_delete_eq
  | rewrite ?lookup_insert_ne, ?lookup_delete_ne by done ].

Lemma expired_true now entry : expired now entry = true <-> resetTime entry <= now.
Proof. unfold expired. rewrite Z.geb_le. reflexivity. Qed.

Lemma expired_false now entry : expired now entry = false <-> now < resetTime entry.
Proof.
  unfold expired. destruct (Z.geb_spec now (resetTime entry)); split; intros; (lia || congruence).
Qed.

(** What the sweep leaves under each key, whatever map the deletions are
    made from. *)
Lemma sweep_fold_lookup now (base m : gmap string RateLimitEntry) key :
  map_fold (fun k entry acc => if expired now entry then delete k acc else acc)
    base m !! key
  = match m !! key with
    | Some entry => if expired now entry then None else base !! key
    | None => base !! key
    end.
Proof.
  revert key.
  apply (map_fold_weak_ind
           (fun r m => forall key, r !! key =
              match m !! key with
              | Some entry => if expired now entry then None else base !! key
              | None => base !! key
              end)).
  - intros key. rewrite lookup_empty. reflexivity.
  - intros i x m' r Hi IH key.
    destruct (decide (i = key)) as [->|Hne].
    + rewrite lookup_insert_eq. destruct (expired now x).
      * apply lookup_delete_eq.
      * rewrite IH, Hi. reflexivity.
    + rewrite lookup_insert_ne by done. destruct (expired now x).
      * rewrite lookup_delete_ne by done. apply IH.
      * apply IH.
Qed.

Lemma cleanup_lookup now rl key :
  store (cleanup now rl) !! key
  = match store rl !! key with
    | Some entry => if expired now entry then None else Some entry
    | None => None
    end.
Proof.
  unfold cleanup. simpl. rewrite sweep_fold_lookup.
  destruct (store rl !! key) eqn:E; reflexivity.
Qed.

(** No call changes the window or the budget. *)
Lemma isAllowed_config now key rl :
  windowMs (isAllowed now key rl).2 = windowMs rl /\
  maxRequests (isAllowed now key rl).2 = maxRequests rl.
Proof.
  unfold isAllowed. destruct (store rl !! key) as [entry|]; [|done].
  destruct (expired now entry); [done|].
  destruct (count entry >=? maxRequests rl); done.
Qed.

Lemma call_config c rl :
  windowMs (call c rl).2 = windowMs rl /\
  maxRequests (call c rl).2 = maxRequests rl.
Proof.
  destruct c as [now key|key|now|]; simpl; try done.
  pose proof (isAllowed_config now key rl) as H.
  destruct (isAllowed now key rl); exact H.
Qed.

(** A request for one key leaves the entries of the other keys alone. *)
Lemma isAllowed_lookup_ne now k key rl :
  k <> key -> store (isAllowed now k rl).2 !! key = store rl !! key.
Proof.
  intros Hne. unfold isAllowed. destruct (store rl !! k) as [entry|]; simpl.
  - destruct (expired now entry); simpl.
    + by rewrite lookup_insert_ne.
    + destruct (count entry >=? maxRequests rl); simpl; [done|].
      by rewrite lookup_insert_ne.
  - by rewrite lookup_insert_ne.
Qed.

(** The three cases of [isAllowed]. *)
Lemma isAllowed_fresh now key rl :
  (store rl !! key = None \/
   exists entry, store rl !! key = Some entry /\ resetTime entry <= now) ->
  isAllowed now key rl =
    ({| allowed := true; until := now + windowMs rl;
        remaining := maxRequests rl - 1 |},
     with_store rl
       (<[key := {| count := 1; resetTime := now + windowMs rl |}]> (store rl))).
Proof.
  intros [H|(entry & H & Hexp)]; unfold isAllowed; rewrite H; [done|].
  apply expired_true in Hexp. by rewrite Hexp.
Qed.

Lemma isAllowed_blocked now key rl entry :
  store rl !! key = Some entry ->
  now < resetTime entry ->
  maxRequests rl <= count entry ->
  isAllowed now key rl =
    ({| allowed := false; until := resetTime entry; remaining := 0 |}, rl).
Proof.
  intros H Hnow Hfull. unfold isAllowed. rewrite H.
  apply expired_false in Hnow. rewrite Hnow.
  destruct (Z.geb_spec (count entry) (maxRequests rl)); [done | lia].
Qed.

Lemma isAllowed_counted now key rl entry :
  store rl !! key = Some entry ->
  now < resetTime entry ->
  count entry < maxRequests rl ->
  isAllowed now key rl =
    ({| allowed := true; until := resetTime entry;
        remaining := maxRequests rl - (count entry + 1) |},
     with_store rl
       (<[key := {| count := count entry + 1;
                    resetTime := resetTime entry |}]> (store rl))).
Proof.
  intros H Hnow Hroom. unfold isAllowed. rewrite H.
  apply expired_false in Hnow. rewrite Hnow.
  destruct (Z.geb_spec (count entry) (maxRequests rl)); [lia | done].
Qed.

Lemma verdictsFor_none key cs rl :
  requestsFor key cs = O -> verdictsFor key cs rl = [].
Proof.
  revert rl. induction cs as [|c cs IH]; intros rl Hn; [done|].
  simpl in Hn. destruct (isCallFor key c) eqn:Hc; [lia|].
  simpl. destruct (call c rl) as [v rl1] eqn:Ecall.
  rewrite IH by lia.
  destruct c as [now k| | |]; try done.
  simpl in Hc. rewrite Hc. by destruct v.
Qed.

(** A call inside the window of [key] that is not a request for [key] leaves
    the entry of [key] as it is. *)
Lemma insideWindow_lookup key entry c rl :
  store rl !! key = Some entry ->
  insideWindow key (resetTime entry) c ->
  isCallFor key c = false ->
  store (call c rl).2 !! key = Some entry.
Proof.
  intros Hkey Hin Hc. destruct c as [now k|k|now|]; cbn in *.
  - apply String.eqb_neq in Hc.
    pose proof (isAllowed_lookup_ne now k key rl Hc) as H.
    destruct (isAllowed now k rl). cbn in *. congruence.
  - rewrite lookup_delete_ne; done.
  - rewrite cleanup_lookup, Hkey.
    apply expired_false in Hin. by rewrite Hin.
  - done.
Qed.

(** The rest of a window: from a counter [c] within the budget, the requests
    for the key count up to the budget and the next one is refused. *)
Lemma verdictsFor_rest key cs : forall rl c windowEnd,
  store rl !! key = Some {| count := c; resetTime := windowEnd |} ->
  1 <= c <= maxRequests rl ->
  Forall (insideWindow key windowEnd) cs ->
  requestsFor key cs = Z.to_nat (maxRequests rl - c + 1) ->
  verdictsFor key cs rl =
    map (granted windowEnd (maxRequests rl)) (seqZ (c + 1) (maxRequests rl - c))
    ++ [refused windowEnd].
Proof.
  induction cs as [|c0 cs IH]; intros rl c windowEnd Hkey Hc Hin Hn.
  { simpl in Hn. lia. }
  apply Forall_cons in Hin as [Hin0 Hin].
  destruct (isCallFor key c0) eqn:Hfor.
  - destruct c0 as [now k| | |]; try discriminate.
    simpl in Hfor. apply String.eqb_eq in Hfor. subst k.
    simpl in Hin0. specialize (Hin0 eq_refl).
    simpl in Hn. rewrite String.eqb_refl in Hn.
    simpl. rewrite String.eqb_refl.
    destruct (Z.eq_dec c (maxRequests rl)) as [Hfull|Hroom].
    + rewrite (isAllowed_blocked now key rl _ Hkey) by (simpl; lia).
      rewrite verdictsFor_none by lia.
      replace (maxRequests rl - c) with 0 by lia. reflexivity.
    + rewrite (isAllowed_counted now key rl _ Hkey) by (simpl; lia).
      simpl count. simpl resetTime.
      erewrite (IH _ (c + 1) windowEnd); simpl.
      * rewrite (seqZ_cons (c + 1)) by lia.
        replace (Z.succ (c + 1)) with (c + 1 + 1) by lia.
        replace (Z.pred (maxRequests rl - c)) with (maxRequests rl - (c + 1)) by lia.
        reflexivity.
      * apply lookup_insert_eq.
      * lia.
      * exact Hin.
      * lia.
  - simpl in Hn. rewrite Hfor in Hn.
    pose proof (insideWindow_lookup key _ c0 rl Hkey Hin0 Hfor) as Hkey'.
    pose proof (call_config c0 rl) as [_ HN].
    simpl. destruct (call c0 rl) as [v rl1] eqn:Ecall. simpl in *.
    assert (verdictsFor key cs rl1 =
            map (granted windowEnd (maxRequests rl))
              (seqZ (c + 1) (maxRequests rl - c)) ++ [refused windowEnd]) as ->.
    { rewrite <- HN. apply IH; rewrite ?HN; try done. }
    destruct c0 as [now k| | |]; try done.
    simpl in Hfor. rewrite Hfor. by destruct v.
Qed.

Lemma calls_cons c cs rl :
  calls (c :: cs) rl =
    ((call c rl).1 :: (calls cs (call c rl).2).1, (calls cs (call c rl).2).2).
Proof.
  simpl. destruct (call c rl) as [v rl1]. simpl.
  by destruct (calls cs rl1).
Qed.

(** Every call keeps the counters within the budget. *)
Lemma countsInBudget_insert rl k e :
  countsInBudget rl -> 1 <= count e <= maxRequests rl ->
  countsInBudget (with_store rl (<[k := e]> (store rl))).
Proof.
  intros Hinv He key entry. cbn. by_key k key.
  - by intros [= <-].
  - apply Hinv.
Qed.

Lemma countsInBudget_call c rl :
  1 <= maxRequests rl -> countsInBudget rl -> countsInBudget (call c rl).2.
Proof.
  intros HN Hinv. destruct c as [now k|k|now|]; cbn.
  - unfold isAllowed.
    destruct (store rl !! k) as [e|] eqn:Hk;
      [destruct (expired now e);
         [|destruct (Z.geb_spec (count e) (maxRequests rl)); [exact Hinv|]]|];
      cbn; apply countsInBudget_insert; cbn; try done; try lia.
    specialize (Hinv _ _ Hk). lia.
  - intros key entry Hl. cbn in Hl.
    apply lookup_delete_Some in Hl as [_ Hl]. exact (Hinv _ _ Hl).
  - intros key entry Hl. rewrite cleanup_lookup in Hl.
    destruct (store rl !! key) as [e|] eqn:Hk; [|done].
    destruct (expired now e); [done|]. injection Hl as <-.
    exact (Hinv _ _ Hk).
  - intros key entry Hl. cbn in Hl. by rewrite lookup_empty in Hl.
Qed.

Lemma countsInBudget_calls cs : forall rl,
  1 <= maxRequests rl -> countsInBudget rl -> countsInBudget (calls cs rl).2.
Proof.
  induction cs as [|c cs IH]; intros rl HN Hinv; [exact Hinv|].
  rewrite calls_cons. simpl. apply IH.
  - by rewrite (proj2 (call_config c rl)).
  - by apply countsInBudget_call.
Qed.

(** The sweep made at [t] is a sweep by [t]. *)
Lemma sweptBy_cleanup t rl : sweptBy t rl (cleanup t rl).
Proof.
  split; [done|]. split; [done|]. intros key. rewrite cleanup_lookup.
  destruct (store rl !! key) as [entry|] eqn:Hk; [|by left].
  destruct (expired t entry) eqn:He; [|by left].
  right. split; [done|]. exists entry. split; [done|]. by apply expired_true.
Qed.

Lemma sweptBy_insert t full swept key entry :
  sweptBy t full swept ->
  sweptBy t (with_store full (<[key := entry]> (store full)))
            (with_store swept (<[key := entry]> (store swept))).
Proof.
  intros (HW & HN & Hst). split; [done|]. split; [done|]. intros k. cbn.
  by_key key k; [by left | apply Hst].
Qed.

(** A request made at [t] or later cannot tell a limiter from the same
    limiter swept by [t]. *)
Lemma sweptBy_isAllowed t full swept now key :
  sweptBy t full swept -> t <= now ->
  (isAllowed now key swept).1 = (isAllowed now key full).1 /\
  sweptBy t (isAllowed now key full).2 (isAllowed now key swept).2.
Proof.
  intros Hsw Hnow. pose proof Hsw as (HW & HN & Hst).
  destruct (Hst key) as [Heq|(Hnone & entry & Hfull & Hexp)].
  - unfold isAllowed. rewrite Heq, HW, HN.
    destruct (store full !! key) as [entry|]; simpl.
    + destruct (expired now entry); simpl.
      * split; [done|]. by apply sweptBy_insert.
      * destruct (count entry >=? maxRequests full); simpl.
        -- done.
        -- split; [done|]. by apply sweptBy_insert.
    + split; [done|]. by apply sweptBy_insert.
  - rewrite (isAllowed_fresh now key swept) by (by left).
    rewrite (isAllowed_fresh now key full) by (right; exists entry; split; [done|lia]).
    simpl. rewrite HW, HN. split; [done|]. by apply sweptBy_insert.
Qed.

Lemma sweptBy_call t full swept c :
  sweptBy t full swept -> notBefore t c ->
  (call c swept).1 = (call c full).1 /\
  sweptBy t (call c full).2 (call c swept).2.
Proof.
  intros Hsw Hc. pose proof Hsw as (HW & HN & Hst).
  destruct c as [now key|key|now|]; cbn in *.
  - pose proof (sweptBy_isAllowed t full swept now key Hsw Hc) as [Hv Hs].
    destruct (isAllowed now key swept), (isAllowed now key full).
    cbn in *. by subst.
  - split; [done|]. split; [done|]. split; [done|]. intros k. cbn.
    by_key key k; [by left | apply Hst].
  - split; [done|]. split; [done|]. split; [done|]. intros k.
    rewrite !cleanup_lookup.
    destruct (Hst k) as [->|(-> & entry & -> & Hexp)]; [by left|].
    left. assert (expired now entry = true) as -> by (apply expired_true; lia).
    done.
  - split; [done|]. split; [done|]. split; [done|]. intros k. by left.
Qed.

Lemma sweptBy_calls t cs : forall full swept,
  sweptBy t full swept -> Forall (notBefore t) cs ->
  (calls cs swept).1 = (calls cs full).1.
Proof.
  induction cs as [|c cs IH]; intros full swept Hsw Hcs; [done|].
  apply Forall_cons in Hcs as [Hc Hcs].
  rewrite !calls_cons. simpl.
  destruct (sweptBy_call t full swept c Hsw Hc) as [-> Hsw'].
  f_equal. by apply IH.
Qed.

(** The repository's tests of the limiter: two requests under a budget of 5;
    three requests under a budget of 2; and, with a window of 0 ms, a third
    request 60001 ms after two requests. *)
Example rateLimiter_tests :
  verdictsFor "test-key" [CallIsAllowed 7 "test-key"; CallIsAllowed 7 "test-key"]
    (new 60000 5 None)
  = [granted 60007 5 1; granted 60007 5 2] /\
  verdictsFor "test-key"
    [CallIsAllowed 7 "test-key"; CallIsAllowed 7 "test-key";
     CallIsAllowed 8 "test-key"]
    (new 60000 2 None)
  = [granted 60007 2 1; granted 60007 2 2; refused 60007] /\
  verdictsFor "test-key"
    [CallIsAllowed 7 "test-key"; CallIsAllowed 7 "test-key";
     CallIsAllowed 60008 "test-key"]
    (new 0 2 None)
  = [granted 7 2 1; granted 7 2 1; granted 60008 2 1].
Proof. repeat split. Qed.

(** *** The claims *)

(** C1, as the code has it. The first request for a key (no entry, or an
    expired one) opens a window that ends [windowMs] later. With a budget
    [N >= 1], that request and the following [N - 1] requests for the key made
    while the clock is strictly before the end of the window are allowed, with
    [remaining] equal to [N-1], [N-2], ..., [0]; the [(N+1)]-th is refused with
    [remaining = 0]. Requests and resets for other keys, and sweeps, may come
    in between. *)
Theorem fixed_window_countdown rl key t0 cs :
  1 <= maxRequests rl ->
  (store rl !! key = None \/
   exists entry, store rl !! key = Some entry /\ resetTime entry <= t0) ->
  Forall (insideWindow key (t0 + windowMs rl)) cs ->
  requestsFor key cs = Z.to_nat (maxRequests rl) ->
  verdictsFor key (CallIsAllowed t0 key :: cs) rl =
    map (granted (t0 + windowMs rl) (maxRequests rl)) (seqZ 1 (maxRequests rl))
    ++ [refused (t0 + windowMs rl)].
Proof.
  intros HN Hfresh Hin Hn.
  cbn [verdictsFor call]. rewrite (isAllowed_fresh t0 key rl Hfresh).
  rewrite String.eqb_refl.
  rewrite (seqZ_cons 1) by lia. cbn [map app]. f_equal.
  erewrite (verdictsFor_rest key cs _ 1 (t0 + windowMs rl)); cbn.
  - replace (Z.pred (maxRequests rl)) with (maxRequests rl - 1) by lia.
    reflexivity.
  - apply lookup_insert_eq.
  - lia.
  - exact Hin.
  - rewrite Hn. f_equal. lia.
Qed.

Lemma fixed_window_countdown_witness :
  verdictsFor "ip:/login"
    [CallIsAllowed 1000 "ip:/login"; CallIsAllowed 1500 "ip:/api";
     CallIsAllowed 2000 "ip:/login"; CallCleanup 30000;
     CallIsAllowed 60999 "ip:/login"]
    (new 60000 2 None)
  = [granted 61000 2 1; granted 61000 2 2; refused 61000].
Proof.
  apply (fixed_window_countdown (new 60000 2 None) "ip:/login" 1000
           [CallIsAllowed 1500 "ip:/api"; CallIsAllowed 2000 "ip:/login";
            CallCleanup 30000; CallIsAllowed 60999 "ip:/login"]).
  - simpl. lia.
  - left. reflexivity.
  - repeat constructor; simpl; intros; (lia || discriminate).
  - reflexivity.
Defined.

(** C1, as stated, fails at the end of the window: a request made exactly
    [windowMs] after the first one is within [windowMs] of it, and it opens a
    new window. With a window of 60000 ms and a budget of 2, requests at 0,
    60000 and 60000 are all allowed. *)
Lemma fixed_window_boundary :
  let rl := new 60000 2 None in
  let cs := [CallIsAllowed 60000 "k"; CallIsAllowed 60000 "k"] in
  1 <= maxRequests rl /\
  store rl !! "k" = None /\
  Forall (fun c => match c with
                   | CallIsAllowed now _ => 0 <= now <= 0 + windowMs rl
                   | _ => False
                   end) cs /\
  requestsFor "k" cs = Z.to_nat (maxRequests rl) /\
  verdictsFor "k" (CallIsAllowed 0 "k" :: cs) rl
    = [granted 60000 2 1; granted 120000 2 1; granted 120000 2 2] /\
  verdictsFor "k" (CallIsAllowed 0 "k" :: cs) rl
    <> map (granted (0 + windowMs rl) (maxRequests rl)) (seqZ 1 (maxRequests rl))
       ++ [refused (0 + windowMs rl)].
Proof.
  cbv zeta. split; [simpl; lia|]. split; [reflexivity|].
  split; [repeat constructor; simpl; lia|]. split; [reflexivity|].
  split; [reflexivity|]. vm_compute. discriminate.
Qed.

(** C2. When the key has no entry, or the clock has reached or passed the
    [resetTime] of its entry, [isAllowed] writes the entry [count = 1],
    [resetTime = now + windowMs] over whatever was there and returns
    [allowed = true] with [remaining = maxRequests - 1]; the call does exactly
    what it does on the limiter from which the key has been deleted. *)
Theorem window_reset rl key now :
  (store rl !! key = None \/
   exists entry, store rl !! key = Some entry /\ resetTime entry <= now) ->
  let '(verdict, rl') := isAllowed now key rl in
  verdict = {| allowed := true; until := now + windowMs rl;
               remaining := maxRequests rl - 1 |} /\
  store rl' !! key = Some {| count := 1; resetTime := now + windowMs rl |} /\
  (forall k, k <> key -> store rl' !! k = store rl !! k) /\
  (verdict, rl') = isAllowed now key (reset key rl).
Proof.
  intros Hfresh. rewrite (isAllowed_fresh now key rl Hfresh).
  split; [done|]. split; [apply lookup_insert_eq|].
  split; [intros k Hk; cbn; by rewrite lookup_insert_ne|].
  rewrite (isAllowed_fresh now key (reset key rl)).
  - unfold reset, with_store. cbn. by rewrite insert_delete_eq.
  - left. apply lookup_delete_eq.
Qed.

Lemma window_reset_witness :
  let rl := (isAllowed 5 "k" (isAllowed 0 "k" (new 1000 2 None)).2).2 in
  let '(verdict, rl') := isAllowed 1000 "k" rl in
  verdict = {| allowed := true; until := 2000; remaining := 1 |} /\
  store rl' !! "k" = Some {| count := 1; resetTime := 2000 |} /\
  (forall k, k <> "k" -> store rl' !! k = store rl !! k) /\
  (verdict, rl') = isAllowed 1000 "k" (reset "k" rl).
Proof.
  apply (window_reset (isAllowed 5 "k" (isAllowed 0 "k" (new 1000 2 None)).2).2
           "k" 1000).
  right. exists {| count := 2; resetTime := 1000 |}.
  split; [reflexivity | simpl; lia].
Defined.

(** C6. A request for a key whose counter has reached the budget, made before
    the [resetTime] of its entry, is refused with [remaining = 0] and the
    stored [resetTime]; the limiter, and with it the entry, is unchanged. *)
Theorem refusal_leaves_store rl key now entry :
  store rl !! key = Some entry ->
  maxRequests rl <= count entry ->
  now < resetTime entry ->
  isAllowed now key rl =
    ({| allowed := false; until := resetTime entry; remaining := 0 |}, rl) /\
  store (isAllowed now key rl).2 !! key = Some entry.
Proof.
  intros Hkey Hfull Hnow.
  rewrite (isAllowed_blocked now key rl entry Hkey Hnow Hfull). done.
Qed.

Lemma refusal_leaves_store_witness :
  let rl := (isAllowed 5 "k" (isAllowed 0 "k" (new 1000 2 None)).2).2 in
  isAllowed 999 "k" rl =
    ({| allowed := false; until := 1000; remaining := 0 |}, rl) /\
  store (isAllowed 999 "k" rl).2 !! "k" = Some {| count := 2; resetTime := 1000 |}.
Proof.
  apply (refusal_leaves_store
           (isAllowed 5 "k" (isAllowed 0 "k" (new 1000 2 None)).2).2
           "k" 999 {| count := 2; resetTime := 1000 |}).
  - reflexivity.
  - vm_compute. discriminate.
  - simpl. lia.
Defined.

(** C7. The sweep removes the entries whose [resetTime] is at or before the
    clock and keeps every other entry as it is; and whatever calls follow the
    sweep (none reading the clock before the sweep did), every one of them
    returns what it returns when the sweep is not run. *)
Theorem sweep_is_unobservable rl now :
  (forall key,
     store (cleanup now rl) !! key =
       match store rl !! key with
       | Some entry => if resetTime entry <=? now then None else Some entry
       | None => None
       end) /\
  (forall cs,
     Forall (notBefore now) cs ->
     (calls cs (cleanup now rl)).1 = (calls cs rl).1).
Proof.
  split.
  - intros key. rewrite cleanup_lookup.
    destruct (store rl !! key) as [entry|]; [|done].
    unfold expired. by rewrite Z.geb_leb.
  - intros cs Hcs. apply (sweptBy_calls now cs rl); [apply sweptBy_cleanup | done].
Qed.

Lemma sweep_is_unobservable_witness :
  let rl := (isAllowed 500 "b" (isAllowed 0 "a" (new 1000 1 None)).2).2 in
  let cs := [CallIsAllowed 1000 "a"; CallIsAllowed 1200 "b"; CallCleanup 1500;
             CallIsAllowed 1600 "b"; CallReset "a"; CallIsAllowed 1700 "a"] in
  Forall (notBefore 1000) cs /\
  store (cleanup 1000 rl) !! "a" = None /\
  store (cleanup 1000 rl) !! "b" = Some {| count := 1; resetTime := 1500 |} /\
  (calls cs (cleanup 1000 rl)).1 = (calls cs rl).1.
Proof.
  cbv zeta.
  assert (Forall (notBefore 1000)
            [CallIsAllowed 1000 "a"; CallIsAllowed 1200 "b"; CallCleanup 1500;
             CallIsAllowed 1600 "b"; CallReset "a"; CallIsAllowed 1700 "a"]) as Hcs.
  { repeat constructor; simpl; lia. }
  split; [exact Hcs|].
  split; [reflexivity|]. split; [reflexivity|].
  exact (proj2 (sweep_is_unobservable
                  (isAllowed 500 "b" (isAllowed 0 "a" (new 1000 1 None)).2).2
                  1000) _ Hcs).
Defined.

(** C10. On a limiter constructed with a budget of at least 1, after any
    sequence of [isAllowed], [reset], [cleanup] (and [destroy]) calls, every
    entry of the store has a counter between 1 and the budget. *)
Theorem counts_within_budget w n c cs :
  1 <= n ->
  forall key entry,
    store (calls cs (new w n c)).2 !! key = Some entry ->
    1 <= count entry <= n.
Proof.
  intros Hn key entry Hl.
  pose proof (countsInBudget_calls cs (new w n c)) as H. cbn in H.
  assert (maxRequests (calls cs (new w n c)).2 = n) as HN.
  { clear. generalize (new w n c) (eq_refl : maxRequests (new w n c) = n).
    induction cs as [|c0 cs IH]; intros rl Hrl; [done|].
    rewrite calls_cons. cbn. apply IH.
    by rewrite (proj2 (call_config c0 rl)). }
  rewrite <- HN. refine (H Hn _ key entry Hl).
  intros k e He. cbn in He. by rewrite lookup_empty in He.
Qed.

Lemma counts_within_budget_witness :
  let cs := [CallIsAllowed 0 "k"; CallCleanup 10; CallIsAllowed 20 "k";
             CallIsAllowed 30 "k"; CallReset "j"] in
  store (calls cs (new 1000 2 None)).2 !! "k"
    = Some {| count := 2; resetTime := 1000 |} /\
  1 <= count {| count := 2; resetTime := 1000 |} <= 2.
Proof.
  cbv zeta. split; [reflexivity|].
  apply (counts_within_budget 1000 2 None
           [CallIsAllowed 0 "k"; CallCleanup 10; CallIsAllowed 20 "k";
            CallIsAllowed 30 "k"; CallReset "j"] ltac:(lia) "k").
  reflexivity.
Defined.

End RateLimitFacts.

(** ** The client address *)

Module ClientIPFacts.

Import ClientIP.

Lemma truthy_nonempty (s : string) : JsString.truthy s = true <-> s <> EmptyString.
Proof. destruct s; simpl; split; congruence. Qed.

Lemma whenTruthy_Some (value : option string) v :
  value = Some v -> v <> EmptyString -> whenTruthy value = Some v.
Proof.
  intros -> Hv. unfold whenTruthy.
  by apply truthy_nonempty in Hv as ->.
Qed.

Lemma whenTruthy_None (value : option string) :
  value = None \/ value = Some EmptyString -> whenTruthy value = None.
Proof. by intros [-> | ->]. Qed.

(** The first piece of a split is the part of the string before the first
    separator: the whole string if it has none. *)
Lemma split_first sep s :
  exists piece pieces,
    JsString.split sep s = piece :: pieces /\
    JsString.hasChar sep piece = false /\
    (s = piece \/ exists tail, s = (piece ++ String sep tail)%string).
Proof.
  induction s as [|c s (piece & pieces & Hs & Hno & Hshape)]; simpl.
  - exists EmptyString, []. repeat split. by left.
  - destruct (Ascii.eqb_spec c sep) as [->|Hne].
    + exists EmptyString, (JsString.split sep s). repeat split.
      right. by exists s.
    + rewrite Hs. exists (String c piece), pieces. split; [done|]. split.
      * simpl. rewrite Hno. by apply Ascii.eqb_neq in Hne as ->.
      * destruct Hshape as [->|[tail ->]]; [by left|]. right. by exists tail.
Qed.

(** C8, as the code has it. A header decides when it is present with a value
    that is not empty. In that sense: [x-forwarded-for] comes first and gives
    its part before the first comma, trimmed, whatever the other two headers
    are; then [x-real-ip], trimmed; then [cf-connecting-ip], trimmed; and
    with none of the three the result is ["unknown"]. The call never fails. *)
Theorem getClientIP_precedence (request : NextRequest) :
  let absent name :=
    get request name = None \/ get request name = Some EmptyString in
  (forall v,
     get request "x-forwarded-for" = Some v -> v <> EmptyString ->
     exists piece pieces,
       JsString.split "," v = piece :: pieces /\
       JsString.hasChar "," piece = false /\
       (v = piece \/ exists tail, v = (piece ++ String "," tail)%string) /\
       getClientIP request = Some (JsString.trim piece)) /\
  (forall v,
     absent "x-forwarded-for"%string ->
     get request "x-real-ip" = Some v -> v <> EmptyString ->
     getClientIP request = Some (JsString.trim v)) /\
  (forall v,
     absent "x-forwarded-for"%string -> absent "x-real-ip"%string ->
     get request "cf-connecting-ip" = Some v -> v <> EmptyString ->
     getClientIP request = Some (JsString.trim v)) /\
  (absent "x-forwarded-for"%string -> absent "x-real-ip"%string ->
   absent "cf-connecting-ip"%string ->
   getClientIP request = Some "unknown"%string) /\
  (exists ip, getClientIP request = Some ip).
Proof.
  cbv zeta. unfold getClientIP.
  split; [|split; [|split; [|split]]].
  - intros v Hv Hne. rewrite (whenTruthy_Some _ v Hv Hne).
    destruct (split_first "," v) as (piece & pieces & Hs & Hno & Hshape).
    exists piece, pieces. rewrite Hs. done.
  - intros v Hf Hv Hne.
    by rewrite (whenTruthy_None _ Hf), (whenTruthy_Some _ v Hv Hne).
  - intros v Hf Hr Hv Hne.
    by rewrite (whenTruthy_None _ Hf), (whenTruthy_None _ Hr),
         (whenTruthy_Some _ v Hv Hne).
  - intros Hf Hr Hc.
    by rewrite (whenTruthy_None _ Hf), (whenTruthy_None _ Hr),
         (whenTruthy_None _ Hc).
  - destruct (whenTruthy (get request "x-forwarded-for")) as [v|].
    + destruct (split_first "," v) as (piece & pieces & -> & _). by eexists.
    + destruct (whenTruthy (get request "x-real-ip")); [by eexists|].
      destruct (whenTruthy (get request "cf-connecting-ip")); by eexists.
Qed.

Lemma getClientIP_precedence_witness :
  let request :=
    {| headers := {[ "x-forwarded-for" := " 192.168.1.1 ,10.0.0.1";
                     "x-real-ip" := "192.168.1.2";
                     "cf-connecting-ip" := "192.168.1.3" ]}%string |} in
  exists piece pieces,
    JsString.split "," " 192.168.1.1 ,10.0.0.1" = piece :: pieces /\
    JsString.hasChar "," piece = false /\
    (" 192.168.1.1 ,10.0.0.1"%string = piece \/
     exists tail, " 192.168.1.1 ,10.0.0.1"%string = (piece ++ String "," tail)%string) /\
    getClientIP request = Some (JsString.trim piece).
Proof.
  cbv zeta.
  apply (proj1 (getClientIP_precedence
    {| headers := {[ "x-forwarded-for" := " 192.168.1.1 ,10.0.0.1";
                     "x-real-ip" := "192.168.1.2";
                     "cf-connecting-ip" := "192.168.1.3" ]}%string |})).
  - reflexivity.
  - discriminate.
Defined.

(** C8, as stated, fails on a header that is present and empty: an empty
    [x-forwarded-for] is passed over, and the request is answered from
    [x-real-ip], where the claim gives the first entry of [x-forwarded-for],
    which is the empty string. *)
Lemma getClientIP_empty_forwarded_for :
  let request :=
    {| headers := {[ "x-forwarded-for" := "";
                     "x-real-ip" := "192.168.1.2" ]}%string |} in
  get request "x-forwarded-for" = Some ""%string /\
  getClientIP request = Some "192.168.1.2"%string /\
  getClientIP_whenPresent request = Some ""%string /\
  getClientIP request <> getClientIP_whenPresent request.
Proof. cbv zeta. repeat split. vm_compute. discriminate. Qed.

(** The requests of the repository's test of [getClientIP]. *)
Example getClientIP_tests :
  getClientIP {| headers := {[ "x-forwarded-for" := "192.168.1.1,10.0.0.1" ]}%string |}
    = Some "192.168.1.1"%string /\
  getClientIP {| headers := {[ "x-real-ip" := "192.168.1.2" ]}%string |}
    = Some "192.168.1.2"%string /\
  getClientIP {| headers := {[ "cf-connecting-ip" := "192.168.1.3" ]}%string |}
    = Some "192.168.1.3"%string /\
  getClientIP {| headers := ∅ |} = Some "unknown"%string.
Proof. repeat split. Qed.

End ClientIPFacts.

(** ** The CSRF guard *)

Module CsrfFacts.

Import Csrf.

Section Guard.

Variables tokenName headerName : string.

Lemma found_Some (value : option string) t :
  found value = Some t <-> value = Some t /\ t <> EmptyString.
Proof.
  unfold found. destruct value as [[|c v]|]; simpl; split.
  - discriminate.
  - intros [[= <-] H]. done.
  - intros [= <-]. done.
  - intros [[= <-] _]. done.
  - discriminate.
  - intros [? _]. discriminate.
Qed.

Lemma found_None (value : option string) :
  found value = None <-> value = None \/ value = Some EmptyString.
Proof.
  unfold found. destruct value as [[|c v]|]; simpl; split; auto.
  intros [|]; discriminate.
Qed.

(** C3. [validateCSRFToken] is a total function to [bool], and it returns
    [true] exactly when there is a token, not empty, that is the value of the
    cookie and also the value of the request header or, the header being
    absent or empty, of the field of the supplied form data that has the
    cookie's name. Without cookie, without candidate, with an empty value or
    with two different values, it returns [false]. *)
Theorem validateCSRFToken_true_iff (cookies : gmap string string)
    (request : ClientIP.NextRequest) (formData : option (gmap string string)) :
  let header := ClientIP.get request headerName in
  (validateCSRFToken tokenName headerName cookies request formData = true <->
   exists token,
     token <> EmptyString /\
     cookies !! tokenName = Some token /\
     (header = Some token \/
      ((header = None \/ header = Some EmptyString) /\
       exists fields, formData = Some fields /\ fields !! tokenName = Some token)))
  /\
  (validateCSRFToken tokenName headerName cookies request formData = false <->
   cookies !! tokenName = None \/
   cookies !! tokenName = Some EmptyString \/
   candidateToken tokenName headerName request formData = None \/
   exists cookieToken token,
     cookies !! tokenName = Some cookieToken /\
     candidateToken tokenName headerName request formData = Some token /\
     cookieToken <> token).
Proof.
  cbv zeta. unfold validateCSRFToken, getCSRFToken. split.
  - split.
    + destruct (found (cookies !! tokenName)) as [cookieToken|] eqn:Hc; [|done].
      destruct (candidateToken _ _ _ _) as [token|] eqn:Ht; [|done].
      intros Heq. apply String.eqb_eq in Heq. subst token.
      apply found_Some in Hc as [Hc Hne].
      exists cookieToken. split; [done|]. split; [done|].
      unfold candidateToken in Ht.
      destruct (found (ClientIP.get request headerName)) as [h|] eqn:Hh.
      * injection Ht as ->. apply found_Some in Hh as [Hh _]. by left.
      * right. apply found_None in Hh. split; [done|].
        apply found_Some in Ht as [Ht _].
        destruct formData as [fields|]; [|done]. by exists fields.
    + intros (token & Hne & Hc & Hcand).
      assert (found (cookies !! tokenName) = Some token) as ->
        by (by apply found_Some).
      assert (candidateToken tokenName headerName request formData = Some token) as ->.
      { unfold candidateToken.
        destruct Hcand as [Hh|[Hh (fields & -> & Hf)]].
        - assert (found (ClientIP.get request headerName) = Some token) as ->
            by (by apply found_Some). done.
        - apply found_None in Hh as ->. by apply found_Some. }
      apply String.eqb_refl.
  - split.
    + destruct (found (cookies !! tokenName)) as [cookieToken|] eqn:Hc.
      * apply found_Some in Hc as [Hc Hne].
        destruct (candidateToken _ _ _ _) as [token|] eqn:Ht.
        -- intros Heq. apply String.eqb_neq in Heq.
           right. right. right. by exists cookieToken, token.
        -- intros _. right. right. by left.
      * intros _. apply found_None in Hc. tauto.
    + intros [Hc|[Hc|[Ht|(cookieToken & token & Hc & Ht & Hne)]]].
      * by rewrite Hc.
      * by rewrite Hc.
      * rewrite Ht. by destruct (found (cookies !! tokenName)).
      * rewrite Hc, Ht. unfold found.
        destruct (JsString.truthy cookieToken); [|done].
        by apply String.eqb_neq.
Qed.

(** The three validations of the repository's tests: the token in the header,
    the token in the form data, another token in the header. *)
Example validateCSRFToken_tests :
  validateCSRFToken tokenName headerName {[ tokenName := "test-token"%string ]}
    {| ClientIP.headers := {[ headerName := "test-token"%string ]} |} None = true /\
  validateCSRFToken tokenName headerName {[ tokenName := "test-token"%string ]}
    {| ClientIP.headers := ∅ |} (Some {[ tokenName := "test-token"%string ]}) = true /\
  validateCSRFToken tokenName headerName {[ tokenName := "valid-token"%string ]}
    {| ClientIP.headers := {[ headerName := "invalid-token"%string ]} |} None = false.
Proof.
  unfold validateCSRFToken, getCSRFToken, candidateToken, ClientIP.get; simpl.
  rewrite ?lookup_singleton_eq, ?lookup_empty. done.
Qed.

End Guard.

End CsrfFacts.

(** ** Bytes *)

Module BytesFacts.

Import Bytes.

(** Cutting into pieces loses nothing: the fuel of [chunks] is enough. *)
Lemma chunksFuel_concat {A : Type} (fuel n : nat) : forall l : list A,
  (1 <= n)%nat -> (length l <= fuel)%nat -> concat (chunksFuel fuel n l) = l.
Proof.
  induction fuel as [|fuel IH]; intros l Hn Hl.
  - destruct l; [done | simpl in Hl; lia].
  - destruct l as [|x l]; [done|].
    cbn [chunksFuel concat]. rewrite IH.
    + apply firstn_skipn.
    + done.
    + rewrite length_skipn. simpl in *. lia.
Qed.

Lemma chunks_concat {A : Type} (n : nat) (l : list A) :
  (1 <= n)%nat -> concat (chunks n l) = l.
Proof. intros Hn. by apply chunksFuel_concat. Qed.

Lemma bigEndian_length n x : length (bigEndian n x) = n.
Proof. unfold bigEndian. by rewrite length_map, length_rev, length_seq. Qed.

End BytesFacts.

(** ** Base32 *)

Module Base32Facts.

Import Base32.

(** C9. The bytes of the ASCII text "hello" are 104, 101, 108, 108, 111, and
    their base32 encoding is the lower-case string [nbswy3dp], which has no
    padding character. *)
Theorem encodeBase32_hello :
  Bytes.ofString "hello" = [104; 101; 108; 108; 111] /\
  encodeBase32 [104; 101; 108; 108; 111] = "nbswy3dp"%string /\
  JsString.hasChar "=" (encodeBase32 [104; 101; 108; 108; 111]) = false.
Proof. repeat split. Qed.

(** Inputs whose length is not a multiple of five bytes get no padding
    either, and decoding gives the bytes back. *)
Example encodeBase32_unpadded :
  encodeBase32 [104] = "na"%string /\
  encodeBase32 [104; 101; 108; 108; 111; 33] = "nbswy3dpee"%string /\
  decodeBase32 "nbswy3dpee" = Some [104; 101; 108; 108; 111; 33] /\
  decodeBase32 "NBSWY3DP" = Some [104; 101; 108; 108; 111] /\
  decodeBase32 "nbswy3d!" = None.
Proof. repeat split. Qed.

End Base32Facts.

(** ** Numbers as decimal strings *)

Module JsStringFacts.

Import JsString.

Lemma length_app (s1 s2 : string) :
  String.length (s1 ++ s2) = (String.length s1 + String.length s2)%nat.
Proof.
  induction s1 as [|c s1 IH]; [done|].
  change (String c s1 ++ s2)%string with (String c (s1 ++ s2)).
  cbn [String.length]. by rewrite IH.
Qed.

Lemma length_repeatChar n c : String.length (repeatChar n c) = n.
Proof. induction n as [|n IH]; simpl; [done|]. by rewrite IH. Qed.

Lemma padStart_length len c s :
  (String.length s <= len)%nat -> String.length (padStart len c s) = len.
Proof.
  intros H. unfold padStart. rewrite length_app, length_repeatChar. lia.
Qed.

Lemma allChars_app p s1 s2 :
  allChars p (s1 ++ s2) = allChars p s1 && allChars p s2.
Proof.
  induction s1 as [|c s1 IH]; [done|].
  change (String c s1 ++ s2)%string with (String c (s1 ++ s2)).
  cbn [allChars]. rewrite IH. apply andb_assoc.
Qed.

Lemma allChars_repeatChar p n c : p c = true -> allChars p (repeatChar n c) = true.
Proof. intros Hc. induction n as [|n IH]; simpl; [done|]. by rewrite Hc, IH. Qed.

Lemma decimalValue_app s1 s2 :
  decimalValue (s1 ++ s2) =
    decimalValue s1 * 10 ^ Z.of_nat (String.length s2) + decimalValue s2.
Proof.
  induction s1 as [|c s1 IH].
  - change (EmptyString ++ s2)%string with s2. cbn [decimalValue]. lia.
  - change (String c s1 ++ s2)%string with (String c (s1 ++ s2)).
    cbn [decimalValue].
    rewrite IH, length_app, Nat2Z.inj_add, Z.pow_add_r by lia. lia.
Qed.

Lemma decimalValue_zeros n : decimalValue (repeatChar n "0") = 0.
Proof.
  induction n as [|n IH]; cbn [decimalValue repeatChar]; [done|].
  rewrite IH. change (nat_of_ascii "0") with 48%nat. lia.
Qed.

Lemma digitChar_code d : 0 <= d < 10 -> Z.of_nat (nat_of_ascii (digitChar d)) = 48 + d.
Proof.
  intros H. unfold digitChar. rewrite nat_ascii_embedding; lia.
Qed.

Lemma isDigit_digitChar d : 0 <= d < 10 -> isDigit (digitChar d) = true.
Proof.
  intros H. pose proof (digitChar_code d H) as Hc. unfold isDigit.
  apply andb_true_intro. split; apply Nat.leb_le; lia.
Qed.

(** The digits written are decimal digits. *)
Lemma digitsInto_digits fuel : forall n acc,
  allChars isDigit acc = true -> allChars isDigit (digitsInto fuel n acc) = true.
Proof.
  induction fuel as [|fuel IH]; intros n acc Hacc; cbn [digitsInto]; [done|].
  assert (allChars isDigit (String (digitChar (n mod 10)) acc) = true) as Hacc'.
  { cbn [allChars]. rewrite Hacc, isDigit_digitChar; [done|].
    apply Z.mod_pos_bound. lia. }
  destruct (n <? 10); [done|]. by apply IH.
Qed.

(** A number below [10^k] is written with at most [k] digits. *)
Lemma digitsInto_length fuel : forall n acc k,
  (1 <= k)%nat -> 0 <= n < 10 ^ Z.of_nat k ->
  (String.length (digitsInto fuel n acc) <= k + String.length acc)%nat.
Proof.
  induction fuel as [|fuel IH]; intros n acc k Hk Hn; cbn [digitsInto]; [lia|].
  destruct (Z.ltb_spec n 10) as [Hlt|Hge]; cbn [String.length]; [lia|].
  destruct k as [|[|k]]; [lia| change (10 ^ Z.of_nat 1) with 10 in Hn; lia |].
  specialize (IH (n / 10) (String (digitChar (n mod 10)) acc) (S k)).
  cbn [String.length] in IH. etransitivity; [apply IH|]; [lia| |lia].
  split; [apply Z.div_pos; lia|].
  apply Z.div_lt_upper_bound; [lia|].
  rewrite <- Z.pow_succ_r by lia.
  replace (Z.succ (Z.of_nat (S k))) with (Z.of_nat (S (S k))) by lia. lia.
Qed.

(** With enough fuel the digits written are those of the number. *)
Lemma digitsInto_value fuel : forall n acc,
  0 <= n < 2 ^ Z.of_nat fuel ->
  decimalValue (digitsInto fuel n acc) =
    n * 10 ^ Z.of_nat (String.length acc) + decimalValue acc.
Proof.
  induction fuel as [|fuel IH]; intros n acc Hn.
  - change (2 ^ Z.of_nat 0) with 1 in Hn. assert (n = 0) as -> by lia.
    cbn [digitsInto]. lia.
  - cbn [digitsInto].
    assert (0 <= n mod 10 < 10) as Hd by (apply Z.mod_pos_bound; lia).
    assert (decimalValue (String (digitChar (n mod 10)) acc) =
            n mod 10 * 10 ^ Z.of_nat (String.length acc) + decimalValue acc) as Hacc'.
    { cbn [decimalValue]. rewrite digitChar_code by done. f_equal. f_equal. lia. }
    destruct (Z.ltb_spec n 10) as [Hlt|Hge].
    + rewrite Hacc'. rewrite Z.mod_small by lia. done.
    + rewrite IH, Hacc'.
      * cbn [String.length]. rewrite Nat2Z.inj_succ, Z.pow_succ_r by lia.
        pose proof (Z.div_mod n 10 ltac:(lia)). nia.
      * rewrite Nat2Z.inj_succ, Z.pow_succ_r in Hn by lia.
        split; [apply Z.div_pos; lia|].
        apply Z.div_lt_upper_bound; lia.
Qed.

Lemma toString_value n : 0 <= n -> decimalValue (toString n) = n.
Proof.
  intros Hn. unfold toString.
  rewrite digitsInto_value; cbn [String.length decimalValue]; [lia|].
  split; [done|]. destruct (Z.eq_dec n 0) as [->|Hne]; [done|].
  rewrite Nat2Z.inj_succ, Z2Nat.id by apply Z.log2_nonneg.
  apply Z.log2_spec. lia.
Qed.

(** What [trim] does: it takes white space, and nothing else, off both ends,
    and what is left neither starts nor ends with white space. *)
Lemma trimStart_spec s :
  exists pre,
    s = (pre ++ trimStart s)%string /\
    allChars isWhiteSpace pre = true /\
    match trimStart s with
    | String c _ => isWhiteSpace c = false
    | EmptyString => True
    end.
Proof.
  induction s as [|c s (pre & Hs & Hpre & Hhead)]; cbn [trimStart].
  - by exists EmptyString.
  - destruct (isWhiteSpace c) eqn:Hc.
    + exists (String c pre). split; [|split; [|done]].
      * change (String c pre ++ trimStart s)%string
          with (String c (pre ++ trimStart s)). by rewrite <- Hs.
      * cbn [allChars]. by rewrite Hc, Hpre.
    + by exists EmptyString.
Qed.

Lemma trimEnd_spec s :
  exists post,
    s = (trimEnd s ++ post)%string /\
    allChars isWhiteSpace post = true /\
    forall body c,
      trimEnd s = (body ++ String c EmptyString)%string -> isWhiteSpace c = false.
Proof.
  induction s as [|c s (post & Hs & Hpost & Hlast)]; cbn [trimEnd].
  - exists EmptyString. split; [done|]. split; [done|].
    intros [|? ?] ? H; discriminate H.
  - destruct (trimEnd s) as [|d t] eqn:Ht.
    + change (EmptyString ++ post)%string with post in Hs. subst post.
      destruct (isWhiteSpace c) eqn:Hc.
      * exists (String c s). split; [done|]. split.
        -- cbn [allChars]. by rewrite Hc, Hpost.
        -- intros [|? ?] ? H; discriminate H.
      * exists s. split; [done|]. split; [done|].
        intros [|? [|? ?]] c0 H; try discriminate H. by injection H as <-.
    + exists post. split; [|split; [done|]].
      * change (String c (String d t) ++ post)%string
          with (String c (String d t ++ post)). by rewrite <- Hs.
      * intros [|c1 body] c0 H; [discriminate H|].
        change (String c1 body ++ String c0 EmptyString)%string
          with (String c1 (body ++ String c0 EmptyString)) in H.
        injection H as _ H. by apply (Hlast body c0).
Qed.

Lemma trimEnd_head s c t : trimEnd s = String c t -> exists t', s = String c t'.
Proof.
  destruct s as [|c' s]; cbn [trimEnd]; [done|].
  destruct (trimEnd s); [destruct (isWhiteSpace c')|];
    intros [= <- _] || intros H; try discriminate; by eexists.
Qed.

Lemma trim_spec s :
  exists pre post,
    s = (pre ++ trim s ++ post)%string /\
    allChars isWhiteSpace pre = true /\
    allChars isWhiteSpace post = true /\
    match trim s with
    | String c _ => isWhiteSpace c = false
    | EmptyString => True
    end /\
    forall body c,
      trim s = (body ++ String c EmptyString)%string -> isWhiteSpace c = false.
Proof.
  destruct (trimStart_spec s) as (pre & Hs & Hpre & Hhead).
  destruct (trimEnd_spec (trimStart s)) as (post & Hs' & Hpost & Hlast).
  exists pre, post. unfold trim. split; [by rewrite <- Hs'|].
  split; [done|]. split; [done|]. split; [|done].
  destruct (trimEnd (trimStart s)) as [|c t] eqn:Ht; [done|].
  apply trimEnd_head in Ht as [t' Ht]. by rewrite Ht in Hhead.
Qed.

(** A number below [10^k], padded to [k >= 1] places: [k] decimal digits that
    write the number. *)
Lemma padStart_toString k n :
  (1 <= k)%nat -> 0 <= n < 10 ^ Z.of_nat k ->
  String.length (padStart k "0" (toString n)) = k /\
  allChars isDigit (padStart k "0" (toString n)) = true /\
  decimalValue (padStart k "0" (toString n)) = n.
Proof.
  intros Hk Hn. split; [|split].
  - apply padStart_length. unfold toString.
    pose proof (digitsInto_length (S (Z.to_nat (Z.log2 n))) n EmptyString k Hk Hn) as H.
    cbn [String.length] in H. lia.
  - unfold padStart. rewrite allChars_app, allChars_repeatChar by done.
    unfold toString. by rewrite digitsInto_digits.
  - unfold padStart. rewrite decimalValue_app, decimalValue_zeros, toString_value; lia.
Qed.

End JsStringFacts.

(** ** The TOTP engine *)

Module TotpFacts.

Import Totp.

Lemma lor_bound a b n :
  0 <= a < 2 ^ n -> 0 <= b < 2 ^ n -> 0 <= Z.lor a b < 2 ^ n.
Proof.
  intros Ha Hb.
  assert (0 <= Z.lor a b) as Hnn by (apply Z.lor_nonneg; lia).
  split; [done|].
  destruct (Z.eq_dec (Z.lor a b) 0) as [->|Hne]; [lia|].
  assert (0 <= n) as Hn.
  { destruct (Z.le_gt_cases 0 n); [done|]. rewrite Z.pow_neg_r in Ha; lia. }
  apply Z.log2_lt_pow2; [lia|]. rewrite Z.log2_lor by lia.
  assert (0 < n) as Hpos.
  { destruct (Z.eq_dec n 0) as [->|]; [|lia].
    assert (a = 0) as -> by lia. assert (b = 0) as -> by lia. done. }
  apply Z.max_lub_lt.
  - destruct (Z.eq_dec a 0) as [->|]; [done|]. apply Z.log2_lt_pow2; lia.
  - destruct (Z.eq_dec b 0) as [->|]; [done|]. apply Z.log2_lt_pow2; lia.
Qed.

Lemma land_low_bound x k : 0 <= k -> 0 <= Z.land x (Z.ones k) < 2 ^ k.
Proof. intros Hk. rewrite Z.land_ones by done. apply Z.mod_pos_bound. lia. Qed.

(** The truncation is a 31-bit number, whatever the hash. *)
Lemma truncate_range hash : 0 <= truncate hash < 2 ^ 31.
Proof.
  unfold truncate.
  set (b0 := nth _ hash 0). set (b1 := nth _ hash 0).
  set (b2 := nth _ hash 0). set (b3 := nth _ hash 0).
  pose proof (land_low_bound b0 7 ltac:(lia)) as H0.
  pose proof (land_low_bound b1 8 ltac:(lia)) as H1.
  pose proof (land_low_bound b2 8 ltac:(lia)) as H2.
  pose proof (land_low_bound b3 8 ltac:(lia)) as H3.
  change (Z.ones 7) with 127 in H0. change (Z.ones 8) with 255 in H1, H2, H3.
  rewrite !Z.shiftl_mul_pow2 by lia.
  repeat apply lor_bound; lia.
Qed.

Lemma counterAt_shift t i : counterAt (t + i * stepSeconds) = counterAt t + i.
Proof. unfold counterAt, stepSeconds. by rewrite Z.div_add. Qed.

Section Engine.

Variable hmac : list Z -> list Z -> list Z.

(** Every code is six decimal digits, and they write the truncation modulo
    10^6. *)
Lemma codeAt_digits key counter :
  String.length (codeAt hmac key counter) = 6%nat /\
  JsString.allChars JsString.isDigit (codeAt hmac key counter) = true /\
  JsString.decimalValue (codeAt hmac key counter) =
    truncate (hmac key (Bytes.bigEndian 8 counter)) mod 10 ^ 6.
Proof.
  unfold codeAt, digits. apply JsStringFacts.padStart_toString; [lia|].
  apply Z.mod_pos_bound. lia.
Qed.

Lemma generateTOTP_Some now secret time code :
  generateTOTP hmac now secret time = Some code <->
  exists key,
    Base32.decodeBase32 secret = Some key /\
    code = codeAt hmac key (counterAt (default now time)).
Proof.
  unfold generateTOTP. destruct (Base32.decodeBase32 secret) as [key|]; simpl.
  - split.
    + intros [= <-]. by exists key.
    + intros (key' & [= <-] & ->). done.
  - split; [done|]. intros (key' & Hk & _). done.
Qed.

(** The codes that [validateTOTP] accepts. *)
Lemma validateTOTP_true now secret code window :
  validateTOTP hmac now secret code window = true <->
  exists i,
    - default 1 window <= i <= default 1 window /\
    generateTOTP hmac now secret (Some (now + i * stepSeconds)) = Some code.
Proof.
  unfold validateTOTP, driftTimes. rewrite existsb_exists. split.
  - intros (t & Hin & Ht). apply in_map_iff in Hin as (i & <- & Hi).
    apply list_elem_of_In, elem_of_seqZ in Hi. exists i. split; [lia|].
    destruct (generateTOTP _ _ _ _) as [expected|]; [|done].
    by apply String.eqb_eq in Ht as ->.
  - intros (i & Hi & Hgen). exists (now + i * stepSeconds). split.
    + apply in_map_iff. exists i. split; [done|].
      apply list_elem_of_In, elem_of_seqZ. lia.
    + rewrite Hgen. apply String.eqb_refl.
Qed.

Lemma validateTOTP_false now secret code window :
  validateTOTP hmac now secret code window = false <->
  forall i,
    - default 1 window <= i <= default 1 window ->
    generateTOTP hmac now secret (Some (now + i * stepSeconds)) <> Some code.
Proof.
  rewrite <- not_true_iff_false, validateTOTP_true. split.
  - intros Hno i Hi Hgen. apply Hno. by exists i.
  - intros Hall (i & Hi & Hgen). by apply (Hall i).
Qed.

(** C5. For every secret that is valid base32 and every time,
    [generateTOTP] returns a code: a string of exactly six decimal digits,
    which write the 31-bit truncation of the hash reduced modulo 10^6, padded
    with zeros; and [validateTOTP], evaluated at the time the code was
    generated for (the moment of generation when no time is given), accepts
    it, with the default tolerance and with every tolerance [k >= 0]. *)
Theorem generateTOTP_six_digits now secret time key :
  Base32.decodeBase32 secret = Some key ->
  exists code,
    generateTOTP hmac now secret time = Some code /\
    String.length code = 6%nat /\
    JsString.allChars JsString.isDigit code = true /\
    (let value :=
       truncate (hmac key (Bytes.bigEndian 8 (counterAt (default now time)))) in
     0 <= value < 2 ^ 31 /\
     JsString.decimalValue code = value mod 10 ^ 6 /\
     code = JsString.padStart 6 "0" (JsString.toString (value mod 10 ^ 6))) /\
    forall window,
      0 <= default 1 window ->
      validateTOTP hmac (default now time) secret code window = true.
Proof.
  intros Hkey. exists (codeAt hmac key (counterAt (default now time))).
  destruct (codeAt_digits key (counterAt (default now time))) as (Hlen & Hdig & Hval).
  split; [apply generateTOTP_Some; by exists key|].
  split; [done|]. split; [done|]. split.
  - cbv zeta. split; [apply truncate_range|]. split; done.
  - intros window Hw. apply validateTOTP_true. exists 0. split; [lia|].
    apply generateTOTP_Some. exists key. split; [done|].
    cbn [from_option id]. by rewrite counterAt_shift, Z.add_0_r.
Qed.

(** C4, as the engine has it. With the default tolerance, [validateTOTP]
    accepts a code exactly when it is the code of one of the times
    [now - 30], [now], [now + 30] (and with a tolerance [k], of one of the
    times [now + 30 i] for [-k <= i <= k]); it is a total function, and what it
    accepts is a string of six decimal digits, so that an empty or malformed
    code is rejected. A code generated for the time [t] is accepted at
    [t + 25]. At [t + 95] it is rejected provided it is not also the code of
    one of the steps 2 to 5 after the step of [t], the steps that are within
    the tolerance at [t + 95]. *)
Theorem validateTOTP_drift now secret code :
  (validateTOTP hmac now secret code None = true <->
   generateTOTP hmac now secret (Some (now - stepSeconds)) = Some code \/
   generateTOTP hmac now secret (Some now) = Some code \/
   generateTOTP hmac now secret (Some (now + stepSeconds)) = Some code) /\
  (forall k,
     validateTOTP hmac now secret code (Some k) = true <->
     exists i, - k <= i <= k /\
       generateTOTP hmac now secret (Some (now + i * stepSeconds)) = Some code) /\
  (forall window,
     validateTOTP hmac now secret code window = true ->
     String.length code = 6%nat /\
     JsString.allChars JsString.isDigit code = true) /\
  (forall t,
     generateTOTP hmac now secret (Some t) = Some code ->
     validateTOTP hmac (t + 25) secret code None = true) /\
  (forall t key,
     Base32.decodeBase32 secret = Some key ->
     generateTOTP hmac now secret (Some t) = Some code ->
     (forall j, 2 <= j <= 5 -> codeAt hmac key (counterAt t + j) <> code) ->
     validateTOTP hmac (t + 95) secret code None = false).
Proof.
  split; [|split; [|split; [|split]]].
  - rewrite validateTOTP_true. cbn [from_option id]. split.
    + intros (i & Hi & Hgen).
      assert (i = -1 \/ i = 0 \/ i = 1) as [-> | [-> | ->]] by lia.
      * left. by replace (now - stepSeconds) with (now + -1 * stepSeconds) by lia.
      * right. left. by replace now with (now + 0 * stepSeconds) at 2 by lia.
      * right. right. by replace (now + stepSeconds) with (now + 1 * stepSeconds) by lia.
    + intros [Hgen|[Hgen|Hgen]].
      * exists (-1). split; [lia|].
        by replace (now + -1 * stepSeconds) with (now - stepSeconds) by lia.
      * exists 0. split; [lia|].
        by replace (now + 0 * stepSeconds) with now by lia.
      * exists 1. split; [lia|].
        by replace (now + 1 * stepSeconds) with (now + stepSeconds) by lia.
  - intros k. apply validateTOTP_true.
  - intros window Hv. apply validateTOTP_true in Hv as (i & _ & Hgen).
    apply generateTOTP_Some in Hgen as (key & _ & ->).
    destruct (codeAt_digits key (counterAt (default now (Some (now + i * stepSeconds)))))
      as (Hlen & Hdig & _). done.
  - intros t Hgen. apply generateTOTP_Some in Hgen as (key & Hkey & ->).
    cbn [from_option id]. apply validateTOTP_true. cbn [from_option id].
    assert (counterAt (t + 25) = counterAt t \/
            counterAt (t + 25) = counterAt t + 1) as [Hc|Hc]
      by (unfold counterAt, stepSeconds; Z.div_mod_to_equations; lia).
    + exists 0. split; [lia|]. apply generateTOTP_Some. exists key.
      split; [done|]. cbn [from_option id]. by rewrite counterAt_shift, Hc, Z.add_0_r.
    + exists (-1). split; [lia|]. apply generateTOTP_Some. exists key.
      split; [done|]. cbn [from_option id]. rewrite counterAt_shift, Hc. f_equal. lia.
  - intros t key Hkey Hgen Hfresh. apply validateTOTP_false. cbn [from_option id].
    intros i Hi Hgen'. apply generateTOTP_Some in Hgen' as (key' & Hkey' & Hcode).
    rewrite Hkey in Hkey'. injection Hkey' as <-.
    cbn [from_option id] in Hcode. rewrite counterAt_shift in Hcode.
    assert (exists j, 2 <= j <= 5 /\ counterAt (t + 95) + i = counterAt t + j)
      as (j & Hj & Heq).
    { exists (counterAt (t + 95) + i - counterAt t).
      unfold counterAt, stepSeconds. Z.div_mod_to_equations. lia. }
    rewrite Heq in Hcode. by apply (Hfresh j Hj).
Qed.

End Engine.

(** The keyed hash of the standard algorithm, on the vectors of its
    definition: SHA-1 of ["abc"], HMAC-SHA-1 with the key ["Jefe"], and the
    codes of the secret ["12345678901234567890"] at the times 59, 1111111109
    and 2000000000. *)
Example sha1_vectors :
  Sha1.sha1 (Bytes.ofString "abc") =
    [169; 153; 62; 54; 71; 6; 129; 106; 186; 62; 37; 113; 120; 80; 194; 108;
     156; 208; 216; 157] /\
  Hmac.hmacSha1 (Bytes.ofString "Jefe")
      (Bytes.ofString "what do ya want for nothing?") =
    [239; 252; 223; 106; 229; 235; 47; 162; 210; 116; 22; 213; 241; 132; 223;
     156; 37; 154; 124; 121] /\
  map (fun t => generateTOTP Hmac.hmacSha1 0 "GEZDGNBVGY3TQOJQGEZDGNBVGY3TQOJQ"
                  (Some t)) [59; 1111111109; 2000000000] =
    [Some "287082"; Some "081804"; Some "279037"]%string.
Proof. vm_compute. repeat split. Qed.

Lemma generateTOTP_six_digits_witness :
  exists code,
    generateTOTP Hmac.hmacSha1 59 "GEZDGNBVGY3TQOJQGEZDGNBVGY3TQOJQ" None
      = Some code /\
    String.length code = 6%nat /\
    JsString.allChars JsString.isDigit code = true /\
    (let value :=
       truncate (Hmac.hmacSha1 (Bytes.ofString "12345678901234567890")
                   (Bytes.bigEndian 8 (counterAt (default 59 None)))) in
     0 <= value < 2 ^ 31 /\
     JsString.decimalValue code = value mod 10 ^ 6 /\
     code = JsString.padStart 6 "0" (JsString.toString (value mod 10 ^ 6))) /\
    forall window,
      0 <= default 1 window ->
      validateTOTP Hmac.hmacSha1 (default 59 None)
        "GEZDGNBVGY3TQOJQGEZDGNBVGY3TQOJQ" code window = true.
Proof.
  apply (generateTOTP_six_digits Hmac.hmacSha1 59
           "GEZDGNBVGY3TQOJQGEZDGNBVGY3TQOJQ" None
           (Bytes.ofString "12345678901234567890")).
  vm_compute. reflexivity.
Defined.

Lemma validateTOTP_drift_witness :
  generateTOTP Hmac.hmacSha1 0 "GEZDGNBVGY3TQOJQGEZDGNBVGY3TQOJQ" (Some 59)
    = Some "287082"%string /\
  validateTOTP Hmac.hmacSha1 (59 + 25) "GEZDGNBVGY3TQOJQGEZDGNBVGY3TQOJQ"
    "287082" None = true /\
  validateTOTP Hmac.hmacSha1 (59 + 95) "GEZDGNBVGY3TQOJQGEZDGNBVGY3TQOJQ"
    "287082" None = false.
Proof.
  assert (generateTOTP Hmac.hmacSha1 0 "GEZDGNBVGY3TQOJQGEZDGNBVGY3TQOJQ" (Some 59)
          = Some "287082"%string) as Hgen by (vm_compute; reflexivity).
  destruct (validateTOTP_drift Hmac.hmacSha1 0
              "GEZDGNBVGY3TQOJQGEZDGNBVGY3TQOJQ" "287082")
    as (_ & _ & _ & Hnear & Hfar).
  split; [exact Hgen|]. split.
  - exact (Hnear 59 Hgen).
  - apply (Hfar 59 (Bytes.ofString "12345678901234567890")).
    + vm_compute. reflexivity.
    + exact Hgen.
    + intros j Hj.
      assert (j = 2 \/ j = 3 \/ j = 4 \/ j = 5) as [-> | [-> | [-> | ->]]] by lia;
        vm_compute; discriminate.
Defined.

(** C4, as stated, fails when two steps have the same code. With the
    standard keyed hash and the secret ["12345678901234567890"], the code of
    the time 1710533460 is also the code of the step two steps later, and it
    is accepted 95 seconds after that time. *)
Lemma validateTOTP_stale_code_accepted :
  let secret := "GEZDGNBVGY3TQOJQGEZDGNBVGY3TQOJQ"%string in
  let t := 1710533460 in
  Base32.decodeBase32 secret = Some (Bytes.ofString "12345678901234567890") /\
  generateTOTP Hmac.hmacSha1 t secret None = Some "882938"%string /\
  generateTOTP Hmac.hmacSha1 t secret (Some (t + 95 - stepSeconds))
    = Some "882938"%string /\
  validateTOTP Hmac.hmacSha1 (t + 95) secret "882938" None = true.
Proof. vm_compute. repeat split. Qed.

End TotpFacts.

(** * Further properties of the code *)

(** ** The rate limiter over sequences of calls *)

Module RateLimitTraceFacts.

Import RateLimit RateLimitTraces RateLimitFacts.

Implicit Types (rl : RateLimiter) (key : string) (entry : RateLimitEntry).

#[local] Arguments cleanup : simpl never.
#[local] Arguments isAllowed : simpl never.

(** Once the budget of a window is used up, every request for the key in
    that window is refused. *)
Lemma verdictsFor_exhausted key cs : forall rl entry,
  store rl !! key = Some entry ->
  maxRequests rl <= count entry ->
  Forall (insideWindow key (resetTime entry)) cs ->
  verdictsFor key cs rl = repeat (refused (resetTime entry)) (requestsFor key cs).
Proof.
  induction cs as [|c0 cs IH]; intros rl entry Hkey Hfull Hin; [done|].
  apply Forall_cons in Hin as [Hin0 Hin].
  destruct (isCallFor key c0) eqn:Hfor.
  - destruct c0 as [now k| | |]; try discriminate.
    cbn in Hfor. apply String.eqb_eq in Hfor. subst k.
    cbn in Hin0. specialize (Hin0 eq_refl).
    cbn [verdictsFor call requestsFor isCallFor].
    rewrite (isAllowed_blocked now key rl entry Hkey Hin0 Hfull).
    rewrite String.eqb_refl. cbn [repeat Nat.add]. f_equal. by apply IH.
  - pose proof (insideWindow_lookup key entry c0 rl Hkey Hin0 Hfor) as Hkey'.
    pose proof (call_config c0 rl) as [_ HN].
    cbn [verdictsFor requestsFor]. rewrite Hfor. cbn [Nat.add].
    destruct (call c0 rl) as [v rl1] eqn:Ecall. cbn in Hkey', HN.
    rewrite (IH rl1 entry) by (rewrite ?HN; done).
    destruct c0 as [now k| | |]; try done.
    cbn in Hfor. rewrite Hfor. by destruct v.
Qed.

(** A window with the counter at [c]: the requests for the key count up to
    the budget, and the rest is refused. *)
Lemma verdictsFor_window key cs : forall rl c windowEnd,
  store rl !! key = Some {| count := c; resetTime := windowEnd |} ->
  1 <= c <= maxRequests rl ->
  Forall (insideWindow key windowEnd) cs ->
  verdictsFor key cs rl =
    map (granted windowEnd (maxRequests rl))
      (seqZ (c + 1) (Z.min (maxRequests rl - c) (Z.of_nat (requestsFor key cs))))
    ++ repeat (refused windowEnd)
         (Z.to_nat (Z.of_nat (requestsFor key cs) - (maxRequests rl - c))).
Proof.
  induction cs as [|c0 cs IH]; intros rl c windowEnd Hkey Hc Hin.
  { cbn [requestsFor verdictsFor]. change (Z.of_nat 0) with 0.
    rewrite Z.min_r by lia.
    replace (Z.to_nat (0 - (maxRequests rl - c))) with 0%nat by lia. done. }
  pose proof Hin as Hall. apply Forall_cons in Hin as [Hin0 Hin].
  destruct (isCallFor key c0) eqn:Hfor.
  - destruct (Z.eq_dec c (maxRequests rl)) as [Hfull|Hroom].
    + rewrite (verdictsFor_exhausted key (c0 :: cs) rl _ Hkey) by (cbn; done || lia).
      rewrite Z.min_l by lia. replace (maxRequests rl - c) with 0 by lia.
      cbn [seqZ]. rewrite Z.sub_0_r, Nat2Z.id. done.
    + destruct c0 as [now k| | |]; try discriminate.
      cbn in Hfor. apply String.eqb_eq in Hfor. subst k.
      cbn in Hin0. specialize (Hin0 eq_refl).
      cbn [verdictsFor call requestsFor isCallFor].
      rewrite (isAllowed_counted now key rl _ Hkey) by (cbn; lia).
      rewrite String.eqb_refl. cbn [count resetTime].
      erewrite (IH _ (c + 1) windowEnd); cbn [maxRequests with_store store].
      * set (m := requestsFor key cs).
        rewrite (seqZ_cons (c + 1)) by lia. cbn [map app].
        replace (Z.succ (c + 1)) with (c + 1 + 1) by lia.
        replace (Z.pred (Z.min (maxRequests rl - c) (Z.of_nat (1 + m))))
          with (Z.min (maxRequests rl - (c + 1)) (Z.of_nat m)) by lia.
        replace (Z.to_nat (Z.of_nat (1 + m) - (maxRequests rl - c)))
          with (Z.to_nat (Z.of_nat m - (maxRequests rl - (c + 1)))) by lia.
        reflexivity.
      * apply lookup_insert_eq.
      * lia.
      * exact Hin.
  - pose proof (insideWindow_lookup key _ c0 rl Hkey Hin0 Hfor) as Hkey'.
    pose proof (call_config c0 rl) as [_ HN].
    cbn [verdictsFor requestsFor]. rewrite Hfor. cbn [Nat.add].
    destruct (call c0 rl) as [v rl1] eqn:Ecall. cbn in Hkey', HN.
    rewrite (IH rl1 c windowEnd) by (rewrite ?HN; done). rewrite HN.
    destruct c0 as [now k| | |]; try done.
    cbn in Hfor. rewrite Hfor. by destruct v.
Qed.

(** In one window at most the budget is admitted. The first request for a
    key (no entry, or an expired one) opens a window; of the [m] requests for
    the key made from then on while the clock is before the end of the window,
    the first [min m N] are allowed, with [remaining] going down from [N - 1],
    and all the later ones are refused with [remaining = 0]. Requests and
    resets for other keys, and sweeps, may come in between. *)
Theorem window_admits_budget rl key t0 cs :
  1 <= maxRequests rl ->
  (store rl !! key = None \/
   exists entry, store rl !! key = Some entry /\ resetTime entry <= t0) ->
  Forall (insideWindow key (t0 + windowMs rl)) cs ->
  let m := Z.of_nat (S (requestsFor key cs)) in
  verdictsFor key (CallIsAllowed t0 key :: cs) rl =
    map (granted (t0 + windowMs rl) (maxRequests rl))
      (seqZ 1 (Z.min (maxRequests rl) m))
    ++ repeat (refused (t0 + windowMs rl)) (Z.to_nat (m - maxRequests rl)).
Proof.
  intros HN Hfresh Hin m. subst m.
  cbn [verdictsFor call]. rewrite (isAllowed_fresh t0 key rl Hfresh).
  rewrite String.eqb_refl.
  erewrite (verdictsFor_window key cs _ 1 (t0 + windowMs rl));
    cbn [maxRequests with_store store].
  - set (m := requestsFor key cs).
    rewrite (seqZ_cons 1) by lia. cbn [map app].
    replace (Z.pred (Z.min (maxRequests rl) (Z.of_nat (S m))))
      with (Z.min (maxRequests rl - 1) (Z.of_nat m)) by lia.
    replace (Z.to_nat (Z.of_nat (S m) - maxRequests rl))
      with (Z.to_nat (Z.of_nat m - (maxRequests rl - 1))) by lia.
    reflexivity.
  - apply lookup_insert_eq.
  - lia.
  - exact Hin.
Qed.

Lemma window_admits_budget_witness :
  verdictsFor "k"
    [CallIsAllowed 0 "k"; CallIsAllowed 10 "k"; CallIsAllowed 20 "j";
     CallIsAllowed 30 "k"; CallCleanup 40; CallIsAllowed 999 "k"]
    (new 1000 2 None)
  = [granted 1000 2 1; granted 1000 2 2; refused 1000; refused 1000].
Proof.
  apply (window_admits_budget (new 1000 2 None) "k" 0
           [CallIsAllowed 10 "k"; CallIsAllowed 20 "j"; CallIsAllowed 30 "k";
            CallCleanup 40; CallIsAllowed 999 "k"]).
  - simpl. lia.
  - left. reflexivity.
  - repeat constructor; simpl; intros; (lia || discriminate).
Defined.

(** A refusal can only come from an entry that is full and not expired. *)
Lemma isAllowed_refused_inv now key rl :
  allowed (isAllowed now key rl).1 = false ->
  exists entry,
    store rl !! key = Some entry /\
    now < resetTime entry /\
    maxRequests rl <= count entry /\
    (isAllowed now key rl).1 = refused (resetTime entry).
Proof.
  unfold isAllowed. destruct (store rl !! key) as [entry|]; [|done].
  destruct (expired now entry) eqn:He; [done|].
  destruct (Z.geb_spec (count entry) (maxRequests rl)); [|done].
  intros _. exists entry. apply expired_false in He. done.
Qed.

(** A refusal stands until the reset time it reports: after a refused
    request, every request for the key made while the clock is before that
    time is refused too, with the same reset time, whatever requests and
    resets for other keys and whatever sweeps come in between. *)
Theorem refusal_is_stable rl key now cs :
  allowed (isAllowed now key rl).1 = false ->
  Forall (insideWindow key (until (isAllowed now key rl).1)) cs ->
  verdictsFor key (CallIsAllowed now key :: cs) rl =
    repeat (refused (until (isAllowed now key rl).1)) (S (requestsFor key cs)).
Proof.
  intros Hrefused Hin.
  destruct (isAllowed_refused_inv now key rl Hrefused)
    as (entry & Hkey & Hnow & Hfull & Hv).
  rewrite Hv in Hin |- *. cbn [until refused] in Hin |- *.
  rewrite (verdictsFor_exhausted key (CallIsAllowed now key :: cs) rl entry Hkey Hfull).
  - cbn [requestsFor isCallFor]. by rewrite String.eqb_refl.
  - apply Forall_cons. split; [|done]. by intros _.
Qed.

Lemma refusal_is_stable_witness :
  let rl := (isAllowed 0 "k" (new 1000 1 None)).2 in
  verdictsFor "k"
    [CallIsAllowed 10 "k"; CallIsAllowed 500 "k"; CallCleanup 600;
     CallIsAllowed 999 "k"] rl
  = [refused 1000; refused 1000; refused 1000].
Proof.
  apply (refusal_is_stable (isAllowed 0 "k" (new 1000 1 None)).2 "k" 10
           [CallIsAllowed 500 "k"; CallCleanup 600; CallIsAllowed 999 "k"]).
  - reflexivity.
  - repeat constructor; vm_compute; intros; congruence.
Defined.

(** [reset] gives the key its whole budget back: after [reset(key)], the
    requests for the key are answered as on a key never seen, whatever the
    entry was. *)
Theorem reset_restores_budget rl key t0 cs :
  1 <= maxRequests rl ->
  Forall (insideWindow key (t0 + windowMs rl)) cs ->
  let m := Z.of_nat (S (requestsFor key cs)) in
  verdictsFor key (CallReset key :: CallIsAllowed t0 key :: cs) rl =
    map (granted (t0 + windowMs rl) (maxRequests rl))
      (seqZ 1 (Z.min (maxRequests rl) m))
    ++ repeat (refused (t0 + windowMs rl)) (Z.to_nat (m - maxRequests rl)).
Proof.
  intros HN Hin m. subst m.
  cbn [verdictsFor call]. rewrite (isAllowed_fresh t0 key (reset key rl))
    by (left; apply lookup_delete_eq).
  rewrite String.eqb_refl. cbn [windowMs maxRequests reset with_store store].
  erewrite (verdictsFor_window key cs _ 1 (t0 + windowMs rl));
    cbn [maxRequests with_store store].
  - set (m := requestsFor key cs).
    rewrite (seqZ_cons 1) by lia. cbn [map app].
    replace (Z.pred (Z.min (maxRequests rl) (Z.of_nat (S m))))
      with (Z.min (maxRequests rl - 1) (Z.of_nat m)) by lia.
    replace (Z.to_nat (Z.of_nat (S m) - maxRequests rl))
      with (Z.to_nat (Z.of_nat m - (maxRequests rl - 1))) by lia.
    reflexivity.
  - apply lookup_insert_eq.
  - change (maxRequests (reset key rl)) with (maxRequests rl). lia.
  - exact Hin.
Qed.

Lemma reset_restores_budget_witness :
  let rl := (isAllowed 5 "k" (isAllowed 0 "k" (new 1000 2 None)).2).2 in
  verdictsFor "k"
    [CallReset "k"; CallIsAllowed 10 "k"; CallIsAllowed 20 "k";
     CallIsAllowed 30 "k"] rl
  = [granted 1010 2 1; granted 1010 2 2; refused 1010].
Proof.
  apply (reset_restores_budget
           (isAllowed 5 "k" (isAllowed 0 "k" (new 1000 2 None)).2).2 "k" 10
           [CallIsAllowed 20 "k"; CallIsAllowed 30 "k"]).
  - vm_compute. discriminate.
  - repeat constructor; vm_compute; intros; congruence.
Defined.

Lemma agreeAt_refl key rl : agreeAt key rl rl.
Proof. done. Qed.

(** What [isAllowed] returns for a key, and the entry it leaves under that
    key, depend on the limiter only through the window, the budget and the
    entry under that key. *)
Lemma agreeAt_isAllowed key now rl1 rl2 :
  agreeAt key rl1 rl2 ->
  (isAllowed now key rl1).1 = (isAllowed now key rl2).1 /\
  agreeAt key (isAllowed now key rl1).2 (isAllowed now key rl2).2.
Proof.
  intros (HW & HN & Hst). unfold isAllowed. rewrite Hst, HW, HN.
  destruct (store rl2 !! key) as [entry|] eqn:Hst2;
    [destruct (expired now entry);
       [|destruct (count entry >=? maxRequests rl2)]|];
    cbn; (split; [done|]); split; try done; split; try done;
    cbn; rewrite ?lookup_insert_eq; congruence.
Qed.

Lemma agreeAt_call key c rl1 rl2 :
  concerns key c = true -> agreeAt key rl1 rl2 ->
  (call c rl1).1 = (call c rl2).1 /\ agreeAt key (call c rl1).2 (call c rl2).2.
Proof.
  intros Hc Hag. pose proof Hag as (HW & HN & Hst).
  destruct c as [now k|k|now|]; cbn in *.
  - apply String.eqb_eq in Hc. subst k.
    pose proof (agreeAt_isAllowed key now rl1 rl2 Hag) as [Hv Hag'].
    destruct (isAllowed now key rl1), (isAllowed now key rl2). cbn in *.
    by subst.
  - apply String.eqb_eq in Hc. subst k. split; [done|].
    split; [done|]. split; [done|]. cbn. by rewrite !lookup_delete_eq.
  - split; [done|]. split; [done|]. split; [done|].
    by rewrite !cleanup_lookup, Hst.
  - done.
Qed.

Lemma agreeAt_skip key c rl1 rl2 :
  concerns key c = false -> agreeAt key rl1 rl2 ->
  agreeAt key rl1 (call c rl2).2.
Proof.
  intros Hc (HW & HN & Hst). pose proof (call_config c rl2) as [HW' HN'].
  split; [congruence|]. split; [congruence|].
  rewrite Hst. destruct c as [now k|k| |]; cbn in *; try discriminate.
  - apply String.eqb_neq in Hc.
    pose proof (isAllowed_lookup_ne now k key rl2 Hc) as H.
    by destruct (isAllowed now k rl2).
  - apply String.eqb_neq in Hc. by rewrite lookup_delete_ne.
Qed.

Lemma verdictsFor_agree key cs : forall rl1 rl2,
  agreeAt key rl1 rl2 ->
  verdictsFor key (List.filter (concerns key) cs) rl1 = verdictsFor key cs rl2.
Proof.
  induction cs as [|c cs IH]; intros rl1 rl2 Hag; [done|].
  cbn [List.filter]. destruct (concerns key c) eqn:Hc.
  - destruct (agreeAt_call key c rl1 rl2 Hc Hag) as [Hv Hag'].
    cbn [verdictsFor].
    destruct (call c rl1) as [v1 rl1'], (call c rl2) as [v2 rl2']. cbn in *.
    subst v2. by rewrite (IH rl1' rl2' Hag').
  - pose proof (agreeAt_skip key c rl1 rl2 Hc Hag) as Hag'.
    cbn [verdictsFor]. destruct (call c rl2) as [v2 rl2']. cbn in Hag'.
    rewrite (IH rl1 rl2' Hag').
    destruct c as [now k|k| |]; cbn in Hc; try discriminate; [|done].
    destruct v2; [|done]. by rewrite Hc.
Qed.

(** Keys do not interfere: the verdicts of the requests for a key are what
    they are when all the requests and resets for other keys are left out of
    the sequence of calls. *)
Theorem verdicts_ignore_other_keys key cs rl :
  verdictsFor key (List.filter (concerns key) cs) rl = verdictsFor key cs rl.
Proof. apply verdictsFor_agree, agreeAt_refl. Qed.

Lemma calls_config cs : forall rl,
  windowMs (calls cs rl).2 = windowMs rl /\
  maxRequests (calls cs rl).2 = maxRequests rl.
Proof.
  induction cs as [|c cs IH]; intros rl; [done|].
  rewrite calls_cons. cbn [snd]. destruct (IH (call c rl).2) as [-> ->].
  apply call_config.
Qed.

(** With the counters within the budget, the verdict says what the entry
    left in the store says. *)
Lemma isAllowed_mirrors now key rl :
  1 <= maxRequests rl -> countsInBudget rl ->
  exists entry,
    store (isAllowed now key rl).2 !! key = Some entry /\
    until (isAllowed now key rl).1 = resetTime entry /\
    remaining (isAllowed now key rl).1 = maxRequests rl - count entry /\
    1 <= count entry <= maxRequests rl.
Proof.
  intros HN Hinv. unfold isAllowed.
  destruct (store rl !! key) as [entry|] eqn:Hkey;
    [destruct (expired now entry);
       [|destruct (Z.geb_spec (count entry) (maxRequests rl))]|]; cbn.
  - eexists. split; [apply lookup_insert_eq|]. cbn. repeat split; lia.
  - exists entry. specialize (Hinv _ _ Hkey). repeat split; done || lia.
  - eexists. split; [apply lookup_insert_eq|]. cbn.
    specialize (Hinv _ _ Hkey). repeat split; lia.
  - eexists. split; [apply lookup_insert_eq|]. cbn. repeat split; lia.
Qed.

(** On a limiter constructed with a budget [n >= 1], after any sequence of
    calls, the verdict of a request is the entry it leaves in the store:
    the reported reset time is the stored one and [remaining] is the budget
    minus the stored counter. So [remaining] is between [0] and [n - 1], and
    it is [0] on every refusal. *)
Theorem verdict_mirrors_entry w n c cs now key :
  1 <= n ->
  let rl := (calls cs (new w n c)).2 in
  exists entry,
    store (isAllowed now key rl).2 !! key = Some entry /\
    until (isAllowed now key rl).1 = resetTime entry /\
    remaining (isAllowed now key rl).1 = n - count entry /\
    0 <= remaining (isAllowed now key rl).1 <= n - 1 /\
    (allowed (isAllowed now key rl).1 = false ->
     remaining (isAllowed now key rl).1 = 0).
Proof.
  intros Hn rl.
  assert (maxRequests rl = n) as HN by apply (calls_config cs (new w n c)).
  assert (countsInBudget rl) as Hinv.
  { apply countsInBudget_calls; [done|].
    intros k e He. cbn in He. by rewrite lookup_empty in He. }
  destruct (isAllowed_mirrors now key rl) as (entry & Hst & Hu & Hr & Hc);
    [lia | done |].
  exists entry. rewrite HN in Hr, Hc. split; [done|]. split; [done|].
  split; [done|]. split; [lia|].
  intros Href. destruct (isAllowed_refused_inv now key rl Href) as (? & _ & _ & _ & ->).
  done.
Qed.

Lemma verdict_mirrors_entry_witness :
  let rl := (calls [CallIsAllowed 0 "k"; CallIsAllowed 5 "k"]
               (new 1000 3 None)).2 in
  exists entry,
    store (isAllowed 7 "k" rl).2 !! "k" = Some entry /\
    until (isAllowed 7 "k" rl).1 = resetTime entry /\
    remaining (isAllowed 7 "k" rl).1 = 3 - count entry /\
    0 <= remaining (isAllowed 7 "k" rl).1 <= 3 - 1 /\
    (allowed (isAllowed 7 "k" rl).1 = false ->
     remaining (isAllowed 7 "k" rl).1 = 0).
Proof.
  apply (verdict_mirrors_entry 1000 3 None
           [CallIsAllowed 0 "k"; CallIsAllowed 5 "k"] 7 "k").
  lia.
Defined.

Lemma limiter_eq rl1 rl2 :
  store rl1 = store rl2 -> windowMs rl1 = windowMs rl2 ->
  maxRequests rl1 = maxRequests rl2 ->
  cleanupIntervalMs rl1 = cleanupIntervalMs rl2 -> rl1 = rl2.
Proof. destruct rl1, rl2. cbn. by intros -> -> -> ->. Qed.

(** Sweeps compose: a sweep after a sweep leaves what one sweep at the later
    of the two clock values leaves. In particular a second sweep at the same
    clock value changes nothing. *)
Theorem cleanup_cleanup t1 t2 rl :
  cleanup t2 (cleanup t1 rl) = cleanup (Z.max t1 t2) rl.
Proof.
  apply limiter_eq; try done. apply map_eq. intros key.
  rewrite !cleanup_lookup.
  destruct (store rl !! key) as [entry|]; [|done].
  unfold expired.
  destruct (Z.geb_spec t1 (resetTime entry)), (Z.geb_spec t2 (resetTime entry)),
    (Z.geb_spec (Z.max t1 t2) (resetTime entry)); try done; try lia.
  all: unfold expired;
    destruct (Z.geb_spec t2 (resetTime entry)); done || lia.
Qed.

(** In a span, a key is granted no more than [budgetLeft]. *)
Lemma admitted_in_span key from cs : forall rl,
  1 <= maxRequests rl -> countsInBudget rl ->
  Forall (inSpan key from (from + windowMs rl)) cs ->
  Z.of_nat (admitted (verdictsFor key cs rl))
    <= budgetLeft key (from + windowMs rl) rl.
Proof.
  induction cs as [|c0 cs IH]; intros rl HN Hinv Hin.
  { cbn. unfold budgetLeft.
    destruct (store rl !! key) as [e|] eqn:Hk; [|lia].
    specialize (Hinv _ _ Hk). destruct (resetTime e <? _); lia. }
  apply Forall_cons in Hin as [Hin0 Hin].
  pose proof (call_config c0 rl) as [HW' HN'].
  pose proof (countsInBudget_call c0 rl HN Hinv) as Hinv'.
  specialize (IH (call c0 rl).2).
  rewrite HW', HN' in IH. specialize (IH HN Hinv' Hin).
  cbn [verdictsFor]. destruct (call c0 rl) as [v rl1] eqn:Ecall.
  cbn [snd] in *.
  assert (budgetLeft key (from + windowMs rl) rl1
          + (if isCallFor key c0
             then match v with
                  | Some verdict => if allowed verdict then 1 else 0
                  | None => 0
                  end
             else 0)
          <= budgetLeft key (from + windowMs rl) rl) as Hstep.
  { unfold budgetLeft. destruct c0 as [now k|k|now|]; cbn in Ecall, Hin0 |- *.
    - destruct (String.eqb_spec k key) as [->|Hne].
      + specialize (Hin0 eq_refl). revert Ecall. unfold isAllowed.
        destruct (store rl !! key) as [e|] eqn:Hk.
        * specialize (Hinv _ _ Hk). destruct (expired now e) eqn:He.
          -- apply expired_true in He. intros [= <- <-]. cbn.
             rewrite lookup_insert_eq. cbn.
             destruct (Z.ltb_spec (now + windowMs rl) (from + windowMs rl)); [lia|].
             destruct (Z.ltb_spec (resetTime e) (from + windowMs rl)); lia.
          -- destruct (Z.geb_spec (count e) (maxRequests rl));
               intros [= <- <-]; cbn.
             ++ rewrite Hk. destruct (resetTime e <? _); lia.
             ++ rewrite lookup_insert_eq. cbn. destruct (resetTime e <? _); lia.
        * intros [= <- <-]. cbn. rewrite lookup_insert_eq. cbn.
          destruct (Z.ltb_spec (now + windowMs rl) (from + windowMs rl)); lia.
      + pose proof (isAllowed_lookup_ne now k key rl Hne) as Hst.
        pose proof (isAllowed_config now k rl) as [_ HNk].
        destruct (isAllowed now k rl) as [v' rl']. injection Ecall as <- <-.
        cbn in Hst, HNk. rewrite Hst, HNk. lia.
    - injection Ecall as <- <-. cbn. rewrite lookup_delete_ne by done. lia.
    - injection Ecall as <- <-. rewrite cleanup_lookup.
      change (maxRequests (cleanup now rl)) with (maxRequests rl).
      destruct (store rl !! key) as [e|] eqn:Hk; [|lia].
      specialize (Hinv _ _ Hk). destruct (expired now e) eqn:He; [|lia].
      apply expired_true in He.
      destruct (Z.ltb_spec (resetTime e) (from + windowMs rl)); lia.
    - done. }
  destruct c0 as [now k| | |]; cbn [isCallFor] in Hstep; try lia.
  destruct (String.eqb k key), v as [verdict|]; try lia.
  unfold admitted in *. cbn [List.filter].
  destruct (allowed verdict); cbn [length]; lia.
Qed.

(** The bound of the fixed window. On a limiter constructed with a budget
    [n >= 1] and a window [w], after any sequence of calls, the requests for a
    key made with the clock in a span [[from, from + w)] shorter than the
    window are granted at most [2 n - 1] times in all, whatever sweeps and
    whatever requests and resets for other keys come in between. (A window
    opens with a request, so a span shorter than the window holds the
    requests of at most one whole window and the end of another.) *)
Theorem span_admits_less_than_twice_budget w n c before key from cs :
  1 <= n ->
  Forall (inSpan key from (from + w)) cs ->
  Z.of_nat (admitted (verdictsFor key cs (calls before (new w n c)).2))
    <= 2 * n - 1.
Proof.
  intros Hn Hin. set (rl := (calls before (new w n c)).2).
  assert (windowMs rl = w) as HW by apply (calls_config before (new w n c)).
  assert (maxRequests rl = n) as HN by apply (calls_config before (new w n c)).
  assert (countsInBudget rl) as Hinv.
  { apply countsInBudget_calls; [done|].
    intros k e He. cbn in He. by rewrite lookup_empty in He. }
  pose proof (admitted_in_span key from cs rl) as H.
  rewrite HW, HN in H. specialize (H Hn Hinv Hin).
  etransitivity; [exact H|]. unfold budgetLeft. rewrite HN.
  destruct (store rl !! key) as [e|] eqn:Hk; [|lia].
  specialize (Hinv _ _ Hk). destruct (resetTime e <? _); lia.
Qed.

Lemma span_admits_less_than_twice_budget_witness :
  Z.of_nat (admitted (verdictsFor "k"
     [CallIsAllowed 500 "k"; CallIsAllowed 999 "k"; CallIsAllowed 1000 "k";
      CallIsAllowed 1001 "k"; CallIsAllowed 1499 "k"]
     (calls [CallIsAllowed 0 "k"] (new 1000 2 None)).2))
  <= 2 * 2 - 1.
Proof.
  apply (span_admits_less_than_twice_budget 1000 2 None
           [CallIsAllowed 0 "k"] "k" 500).
  - lia.
  - repeat constructor; cbn; intros; lia.
Defined.

(** The bound is reached: with a budget of 2 and a window of 1000 ms, after a
    request at 0, three of the requests at 500, 999, 1000, 1001 and 1499 are
    granted. *)
Example span_bound_is_reached :
  verdictsFor "k"
    [CallIsAllowed 500 "k"; CallIsAllowed 999 "k"; CallIsAllowed 1000 "k";
     CallIsAllowed 1001 "k"; CallIsAllowed 1499 "k"]
    (calls [CallIsAllowed 0 "k"] (new 1000 2 None)).2
  = [granted 1000 2 2; refused 1000; granted 2000 2 1; granted 2000 2 2;
     refused 2000].
Proof. reflexivity. Qed.

End RateLimitTraceFacts.

(** ** Numbers in headers *)

Module JsNumberFacts.

Import JsString JsNumber JsStringFacts.

(** The first character of what [digitsInto] writes is a digit, if the
    accumulator starts with one or the fuel is not zero. *)
Lemma digitsInto_head fuel : forall n acc,
  exists d rest,
    0 <= d < 10 /\
    digitsInto (S fuel) n acc = String (digitChar d) rest.
Proof.
  induction fuel as [|fuel IH]; intros n acc.
  - cbn [digitsInto]. exists (n mod 10), acc.
    split; [apply Z.mod_pos_bound; lia|]. by destruct (n <? 10).
  - change (digitsInto (S (S fuel)) n acc)
      with (if n <? 10 then String (digitChar (n mod 10)) acc
            else digitsInto (S fuel) (n / 10) (String (digitChar (n mod 10)) acc)).
    destruct (n <? 10); [|apply IH].
    exists (n mod 10), acc. split; [apply Z.mod_pos_bound; lia|done].
Qed.

Lemma digitChar_not_minus d : 0 <= d < 10 -> digitChar d <> "-"%char.
Proof.
  intros Hd Heq. pose proof (digitChar_code d Hd) as Hc.
  rewrite Heq in Hc. change (nat_of_ascii "-") with 45%nat in Hc. lia.
Qed.

Lemma integerOf_unsigned c rest :
  c <> "-"%char -> integerOf (String c rest) = decimalValue (String c rest).
Proof.
  intros Hne. unfold integerOf.
  destruct c as [[] [] [] [] [] [] [] []]; try reflexivity.
  by destruct Hne.
Qed.

(** The decimal string of an integer reads back as the integer. *)
Lemma integerOf_numberToString n : integerOf (numberToString n) = n.
Proof.
  unfold numberToString. destruct (Z.ltb_spec n 0) as [Hneg|Hpos].
  - cbn [integerOf]. rewrite toString_value by lia. lia.
  - destruct (digitsInto_head (Z.to_nat (Z.log2 n)) n EmptyString)
      as (d & rest & Hd & Hs).
    rewrite <- (toString_value n Hpos) at 2. unfold toString. rewrite Hs.
    apply integerOf_unsigned. by apply digitChar_not_minus.
Qed.

(** [ceilDiv x d] is the least integer [s] with [x <= d s]. *)
Lemma ceilDiv_spec x d :
  0 < d -> d * (ceilDiv x d - 1) < x <= d * ceilDiv x d.
Proof.
  intros Hd. unfold ceilDiv.
  pose proof (Z.div_mod (- x) d ltac:(lia)).
  pose proof (Z.mod_pos_bound (- x) d Hd). nia.
Qed.

End JsNumberFacts.

(** ** The rate limiter in front of a route *)

Module RateLimitHttpFacts.

Import RateLimit RateLimitTraces RateLimitHttp.
Import RateLimitFacts RateLimitTraceFacts ClientIPFacts.

#[local] Arguments isAllowed : simpl never.

Lemma getClientIP_total (request : ClientIP.NextRequest) :
  exists ip, ClientIP.getClientIP request = Some ip.
Proof.
  unfold ClientIP.getClientIP.
  destruct (ClientIP.whenTruthy (ClientIP.get request "x-forwarded-for")) as [v|].
  - destruct (split_first "," v) as (piece & pieces & -> & _). by eexists.
  - destruct (ClientIP.whenTruthy (ClientIP.get request "x-real-ip"));
      [by eexists|].
    destruct (ClientIP.whenTruthy (ClientIP.get request "cf-connecting-ip"));
      by eexists.
Qed.

Lemma verdict_rebuilt (v : Verdict) :
  (if negb (allowed v) then
     {| allowed := false; until := until v; remaining := remaining v |}
   else {| allowed := true; until := until v; remaining := remaining v |}) = v.
Proof. by destruct v as [[] ? ?]. Qed.

Lemma middleware_with_ip now request rl ip :
  ClientIP.getClientIP (asRequest request) = Some ip ->
  createRateLimitMiddleware now request rl =
    Some (isAllowed now (limiterKey ip (pathname request)) rl).
Proof.
  intros Hip. unfold createRateLimitMiddleware. rewrite Hip. cbn.
  destruct (isAllowed now _ rl) as [v rl']. by rewrite verdict_rebuilt.
Qed.

(** The middleware never fails, and it returns what [isAllowed] returns for
    the key made of the client address, a colon and the path of the request,
    changing the limiter as [isAllowed] does. A request with none of the three
    address headers (or with empty ones) is counted under ["unknown:"]
    followed by the path, whoever sent it. *)
Theorem middleware_is_isAllowed now request rl :
  (exists ip,
     ClientIP.getClientIP (asRequest request) = Some ip /\
     createRateLimitMiddleware now request rl =
       Some (isAllowed now (ip ++ ":" ++ pathname request)%string rl)) /\
  (let absent name :=
     ClientIP.get (asRequest request) name = None \/
     ClientIP.get (asRequest request) name = Some EmptyString in
   absent "x-forwarded-for"%string -> absent "x-real-ip"%string ->
   absent "cf-connecting-ip"%string ->
   createRateLimitMiddleware now request rl =
     Some (isAllowed now ("unknown:" ++ pathname request)%string rl)).
Proof.
  split.
  - destruct (getClientIP_total (asRequest request)) as [ip Hip].
    exists ip. split; [done|]. by apply middleware_with_ip.
  - intros absent Hf Hr Hc.
    apply (middleware_with_ip now request rl "unknown").
    unfold ClientIP.getClientIP.
    by rewrite (whenTruthy_None _ Hf), (whenTruthy_None _ Hr),
         (whenTruthy_None _ Hc).
Qed.

Lemma middleware_is_isAllowed_witness :
  createRateLimitMiddleware 5
    {| asRequest := {| ClientIP.headers := ∅ |}; pathname := "/api/notes" |}
    (new 1000 2 None)
  = Some (isAllowed 5 "unknown:/api/notes" (new 1000 2 None)).
Proof.
  apply (proj2 (middleware_is_isAllowed 5
    {| asRequest := {| ClientIP.headers := ∅ |}; pathname := "/api/notes" |}
    (new 1000 2 None))); left; reflexivity.
Defined.

Lemma append_inv_head (s t1 t2 : string) :
  (s ++ t1)%string = (s ++ t2)%string -> t1 = t2.
Proof.
  induction s as [|c s IH]; [done|].
  change (String c s ++ t1)%string with (String c (s ++ t1)).
  change (String c s ++ t2)%string with (String c (s ++ t2)).
  intros [= H]. by apply IH.
Qed.

Lemma append_inv_tail (s1 s2 t : string) :
  (s1 ++ t)%string = (s2 ++ t)%string -> s1 = s2.
Proof.
  revert s2. induction s1 as [|c s1 IH]; intros [|c2 s2] H.
  - done.
  - apply (f_equal String.length) in H.
    change (EmptyString ++ t)%string with t in H.
    change (String c2 s2 ++ t)%string with (String c2 (s2 ++ t)) in H.
    cbn [String.length] in H. rewrite JsStringFacts.length_app in H. lia.
  - apply (f_equal String.length) in H.
    change (EmptyString ++ t)%string with t in H.
    change (String c s1 ++ t)%string with (String c (s1 ++ t)) in H.
    cbn [String.length] in H. rewrite JsStringFacts.length_app in H. lia.
  - change (String c s1 ++ t)%string with (String c (s1 ++ t)) in H.
    change (String c2 s2 ++ t)%string with (String c2 (s2 ++ t)) in H.
    injection H as -> H. f_equal. by apply IH.
Qed.

(** The key tells the routes of one client apart, and the clients of one
    route. *)
Lemma limiterKey_differs ip1 p1 ip2 p2 :
  (ip1 = ip2 /\ p1 <> p2) \/ (p1 = p2 /\ ip1 <> ip2) ->
  limiterKey ip1 p1 <> limiterKey ip2 p2.
Proof.
  unfold limiterKey. intros [[-> Hp]|[-> Hip]] Heq.
  - apply append_inv_head, append_inv_head in Heq. done.
  - apply Hip. apply (append_inv_tail ip1 ip2 (":" ++ p2)%string). exact Heq.
Qed.

(** Two routes of one client, and two clients of one route, have budgets of
    their own: serving a request on the one leaves the verdict of a request
    on the other as it is without it. *)
Theorem routes_are_independent t1 t2 r1 r2 rl ip1 ip2 :
  ClientIP.getClientIP (asRequest r1) = Some ip1 ->
  ClientIP.getClientIP (asRequest r2) = Some ip2 ->
  (ip1 = ip2 /\ pathname r1 <> pathname r2) \/
  (pathname r1 = pathname r2 /\ ip1 <> ip2) ->
  exists v1 rl1,
    createRateLimitMiddleware t1 r1 rl = Some (v1, rl1) /\
    fst <$> createRateLimitMiddleware t2 r2 rl1 =
    fst <$> createRateLimitMiddleware t2 r2 rl.
Proof.
  intros Hip1 Hip2 Hdiff.
  pose proof (limiterKey_differs _ _ _ _ Hdiff) as Hkeys.
  rewrite (middleware_with_ip t1 r1 rl ip1 Hip1).
  destruct (isAllowed t1 (limiterKey ip1 (pathname r1)) rl) as [v1 rl1] eqn:E1.
  exists v1, rl1. split; [done|].
  rewrite !(middleware_with_ip t2 r2 _ ip2 Hip2). cbn. f_equal.
  apply agreeAt_isAllowed.
  pose proof (isAllowed_config t1 (limiterKey ip1 (pathname r1)) rl) as [HW HN].
  pose proof (isAllowed_lookup_ne t1 _ _ rl Hkeys) as Hst.
  rewrite E1 in HW, HN, Hst. done.
Qed.

Lemma routes_are_independent_witness :
  let r1 :=
    {| asRequest :=
         {| ClientIP.headers := {[ "x-real-ip" := "10.0.0.7" ]}%string |};
       pathname := "/login" |} in
  let r2 :=
    {| asRequest :=
         {| ClientIP.headers := {[ "x-real-ip" := "10.0.0.7" ]}%string |};
       pathname := "/api/notes" |} in
  exists v1 rl1,
    createRateLimitMiddleware 0 r1 (new 1000 1 None) = Some (v1, rl1) /\
    fst <$> createRateLimitMiddleware 5 r2 rl1 =
    fst <$> createRateLimitMiddleware 5 r2 (new 1000 1 None).
Proof.
  apply (routes_are_independent 0 5
    {| asRequest := {| ClientIP.headers := {[ "x-real-ip" := "10.0.0.7" ]}%string |};
       pathname := "/login" |}
    {| asRequest := {| ClientIP.headers := {[ "x-real-ip" := "10.0.0.7" ]}%string |};
       pathname := "/api/notes" |}
    (new 1000 1 None) "10.0.0.7" "10.0.0.7").
  - reflexivity.
  - reflexivity.
  - left. split; [reflexivity | discriminate].
Defined.

(** With a window that is not empty, the reset time that [isAllowed] reports
    is after the clock value of the call. *)
Lemma isAllowed_until_future now key rl :
  0 < windowMs rl -> now < until (isAllowed now key rl).1.
Proof.
  intros HW. unfold isAllowed.
  destruct (store rl !! key) as [entry|]; [|cbn; lia].
  destruct (expired now entry) eqn:He; [cbn; lia|].
  apply expired_false in He.
  by destruct (count entry >=? maxRequests rl).
Qed.

Section Headers.

Variable GENERAL_MAX_REQUESTS : Z.
Variable toUTCString : Z -> string.

(** [Retry-After] is the time left until the reset, in whole seconds, rounded
    up: the least number of seconds that covers [resetTime - now]. It is zero
    or negative when the reset time has been reached. *)
Theorem retryAfter_is_ceiling now resetTime remaining limit :
  let h :=
    getRateLimitHeaders GENERAL_MAX_REQUESTS toUTCString
      now resetTime remaining limit in
  let s := JsNumber.integerOf (retryAfter h) in
  1000 * (s - 1) < resetTime - now <= 1000 * s /\
  (1 <= s <-> now < resetTime).
Proof.
  cbv zeta. cbn [getRateLimitHeaders retryAfter].
  rewrite JsNumberFacts.integerOf_numberToString.
  pose proof (JsNumberFacts.ceilDiv_spec (resetTime - now) 1000 ltac:(lia)).
  lia.
Qed.

(** The count headers read back as the numbers they were made from:
    [X-RateLimit-Remaining] as [remaining], and [X-RateLimit-Limit] as the
    limit given, except that a limit of [0], like a limit not given, is
    replaced by the budget of the general configuration. *)
Theorem count_headers_read_back now resetTime remaining limit :
  let h :=
    getRateLimitHeaders GENERAL_MAX_REQUESTS toUTCString
      now resetTime remaining limit in
  JsNumber.integerOf (xRateLimitRemaining h) = remaining /\
  (forall l, limit = Some l -> l <> 0 ->
     JsNumber.integerOf (xRateLimitLimit h) = l) /\
  (limit = None \/ limit = Some 0 ->
     JsNumber.integerOf (xRateLimitLimit h) = GENERAL_MAX_REQUESTS).
Proof.
  cbv zeta. cbn [getRateLimitHeaders xRateLimitRemaining xRateLimitLimit].
  rewrite !JsNumberFacts.integerOf_numberToString. split; [done|]. split.
  - intros l -> Hl. cbn. by apply Z.eqb_neq in Hl as ->.
  - by intros [-> | ->].
Qed.

(** Headers made from a verdict at the clock value of the request, on a
    limiter constructed with a budget [n >= 1] and a window [w > 0], after any
    sequence of calls: [Retry-After] is at least one second, and
    [X-RateLimit-Remaining] is a number between [0] and [n - 1], written in
    decimal digits without a sign. *)
Theorem headers_of_verdict w n c cs now key limit :
  1 <= n -> 0 < w ->
  let v := (isAllowed now key (calls cs (new w n c)).2).1 in
  let h :=
    getRateLimitHeaders GENERAL_MAX_REQUESTS toUTCString
      now (until v) (remaining v) limit in
  1 <= JsNumber.integerOf (retryAfter h) /\
  0 <= JsNumber.integerOf (xRateLimitRemaining h) <= n - 1 /\
  JsString.allChars JsString.isDigit (xRateLimitRemaining h) = true.
Proof.
  intros Hn Hw v h. subst h.
  set (rl := (calls cs (new w n c)).2) in *.
  assert (windowMs rl = w) as HW by apply (calls_config cs (new w n c)).
  assert (maxRequests rl = n) as HN by apply (calls_config cs (new w n c)).
  assert (countsInBudget rl) as Hinv.
  { apply countsInBudget_calls; [done|].
    intros k e He. cbn in He. by rewrite lookup_empty in He. }
  pose proof (isAllowed_until_future now key rl ltac:(lia)) as Hfuture.
  destruct (isAllowed_mirrors now key rl) as (entry & _ & _ & Hr & Hc);
    [lia | done |].
  fold v in Hfuture, Hr. rewrite HN in Hr, Hc.
  cbn [getRateLimitHeaders retryAfter xRateLimitRemaining].
  rewrite !JsNumberFacts.integerOf_numberToString.
  pose proof (JsNumberFacts.ceilDiv_spec (until v - now) 1000 ltac:(lia)).
  split; [lia|]. split; [lia|].
  unfold JsNumber.numberToString.
  destruct (Z.ltb_spec (remaining v) 0); [lia|].
  unfold JsString.toString. by apply JsStringFacts.digitsInto_digits.
Qed.

End Headers.

Lemma count_headers_read_back_witness :
  let h :=
    getRateLimitHeaders 100 (fun _ => EmptyString) 1000 61000 3 (Some 10) in
  JsNumber.integerOf (xRateLimitRemaining h) = 3 /\
  JsNumber.integerOf (xRateLimitLimit h) = 10.
Proof.
  cbv zeta.
  destruct (count_headers_read_back 100 (fun _ => EmptyString)
              1000 61000 3 (Some 10)) as (Hr & Hl & _).
  split; [exact Hr|]. apply (Hl 10); [reflexivity | lia].
Defined.

Lemma headers_of_verdict_witness :
  let v := (isAllowed 7 "k"
              (calls [CallIsAllowed 0 "k"] (new 60000 5 None)).2).1 in
  let h :=
    getRateLimitHeaders 100 (fun _ => EmptyString) 7 (until v) (remaining v)
      (Some 5) in
  1 <= JsNumber.integerOf (retryAfter h) /\
  0 <= JsNumber.integerOf (xRateLimitRemaining h) <= 5 - 1 /\
  JsString.allChars JsString.isDigit (xRateLimitRemaining h) = true.
Proof.
  apply (headers_of_verdict 100 (fun _ => EmptyString) 60000 5 None
           [CallIsAllowed 0 "k"] 7 "k" (Some 5)); lia.
Defined.

End RateLimitHttpFacts.

(** ** The client address, further *)

Module ClientIPMoreFacts.

Import JsString ClientIP ClientIPFacts JsStringFacts.

Lemma trimStart_id s :
  match s with
  | String c _ => isWhiteSpace c = false
  | EmptyString => True
  end -> trimStart s = s.
Proof. destruct s as [|c s]; [done|]. cbn [trimStart]. by intros ->. Qed.

Lemma trimEnd_id s :
  (forall body c, s = (body ++ String c EmptyString)%string -> isWhiteSpace c = false) ->
  trimEnd s = s.
Proof.
  induction s as [|c s IH]; intros Hlast; [done|].
  cbn [trimEnd]. rewrite IH.
  - destruct s as [|d t]; [|done].
    by rewrite (Hlast EmptyString c eq_refl).
  - intros body c0 ->. by apply (Hlast (String c body) c0).
Qed.

(** Trimming what is trimmed changes nothing. *)
Lemma trim_trim s : trim (trim s) = trim s.
Proof.
  destruct (trim_spec s) as (_ & _ & _ & _ & _ & Hhead & Hlast).
  unfold trim at 1. rewrite (trimStart_id _ Hhead). by apply trimEnd_id.
Qed.

Lemma hasChar_app c s1 s2 :
  hasChar c (s1 ++ s2) = hasChar c s1 || hasChar c s2.
Proof.
  induction s1 as [|c1 s1 IH]; [done|].
  change (String c1 s1 ++ s2)%string with (String c1 (s1 ++ s2)).
  cbn [hasChar]. rewrite IH. apply orb_assoc.
Qed.

Lemma hasChar_trim c s : hasChar c s = false -> hasChar c (trim s) = false.
Proof.
  destruct (trim_spec s) as (pre & post & Hs & _). intros H.
  rewrite Hs, !hasChar_app in H.
  apply orb_false_elim in H as [_ H]. by apply orb_false_elim in H as [H _].
Qed.

Lemma trim_blank s : allChars isWhiteSpace s = true -> trim s = EmptyString.
Proof.
  intros H. unfold trim.
  assert (trimStart s = EmptyString) as ->; [|done].
  induction s as [|c s IH]; [done|]. cbn [allChars] in H.
  apply andb_prop in H as [Hc H]. cbn [trimStart]. rewrite Hc. by apply IH.
Qed.

Lemma blank_no_comma s : allChars isWhiteSpace s = true -> hasChar "," s = false.
Proof.
  induction s as [|c s IH]; [done|]. cbn [allChars hasChar]. intros H.
  apply andb_prop in H as [Hc H]. rewrite (IH H), orb_false_r.
  destruct (Ascii.eqb_spec c ","); [subst c; discriminate Hc | done].
Qed.

(** A string split at a separator: a first part without the separator is the
    first piece. *)
Lemma split_app sep a b :
  hasChar sep a = false ->
  split sep (a ++ String sep b) = a :: split sep b.
Proof.
  induction a as [|c a IH]; intros Hno.
  - change (EmptyString ++ String sep b)%string with (String sep b).
    cbn [split]. by rewrite Ascii.eqb_refl.
  - change (String c a ++ String sep b)%string with (String c (a ++ String sep b)).
    cbn [hasChar] in Hno. apply orb_false_elim in Hno as [Hc Hno].
    cbn [split]. rewrite Hc, (IH Hno). done.
Qed.

Lemma split_whole sep a : hasChar sep a = false -> split sep a = [a].
Proof.
  induction a as [|c a IH]; intros Hno; [done|].
  cbn [hasChar] in Hno. apply orb_false_elim in Hno as [Hc Hno].
  cbn [split]. by rewrite Hc, (IH Hno).
Qed.

(** The address that [getClientIP] returns is trimmed: it neither starts nor
    ends with white space, so that trimming it again changes nothing; and
    when it comes from a non-empty [x-forwarded-for] it has no comma. *)
Theorem getClientIP_normalised (request : NextRequest) ip :
  getClientIP request = Some ip ->
  match ip with
  | String c _ => isWhiteSpace c = false
  | EmptyString => True
  end /\
  (forall body c,
     ip = (body ++ String c EmptyString)%string -> isWhiteSpace c = false) /\
  trim ip = ip /\
  (forall v, get request "x-forwarded-for" = Some v -> v <> EmptyString ->
     hasChar "," ip = false).
Proof.
  intros Hip.
  assert (ip = "unknown"%string \/ exists s, ip = trim s) as Hshape.
  { revert Hip. unfold getClientIP.
    destruct (whenTruthy (get request "x-forwarded-for")) as [v|].
    - destruct (split_first "," v) as (piece & pieces & -> & _).
      intros [= <-]. right. by eexists.
    - destruct (whenTruthy (get request "x-real-ip"));
        [intros [= <-]; right; by eexists|].
      destruct (whenTruthy (get request "cf-connecting-ip"));
        intros [= <-]; [right; by eexists | by left]. }
  split; [|split; [|split]].
  - destruct Hshape as [-> | [s ->]]; [done|].
    by destruct (trim_spec s) as (_ & _ & _ & _ & _ & Hhead & _).
  - destruct Hshape as [-> | [s ->]].
    + intros body c H.
      assert (trimEnd "unknown" = "unknown"%string) as Ht by reflexivity.
      rewrite H in Ht. destruct (trimEnd_spec (body ++ String c EmptyString))
        as (post & _ & _ & Hlast).
      by apply (Hlast body c).
    + by destruct (trim_spec s) as (_ & _ & _ & _ & _ & _ & Hlast).
  - destruct Hshape as [-> | [s ->]]; [done | apply trim_trim].
  - intros v Hv Hne. revert Hip. unfold getClientIP.
    rewrite (whenTruthy_Some _ v Hv Hne).
    destruct (split_first "," v) as (piece & pieces & -> & Hno & _).
    intros [= <-]. by apply hasChar_trim.
Qed.

Lemma getClientIP_normalised_witness :
  let request :=
    {| headers := {[ "x-forwarded-for" := " 192.168.1.1 ,10.0.0.1" ]}%string |} in
  getClientIP request = Some "192.168.1.1"%string /\
  trim "192.168.1.1" = "192.168.1.1"%string /\
  hasChar "," "192.168.1.1" = false.
Proof.
  cbv zeta.
  assert (getClientIP
            {| headers := {[ "x-forwarded-for" := " 192.168.1.1 ,10.0.0.1" ]}%string |}
          = Some "192.168.1.1"%string) as Hip by reflexivity.
  destruct (getClientIP_normalised _ _ Hip) as (_ & _ & Htrim & Hcomma).
  split; [exact Hip|]. split; [exact Htrim|].
  apply (Hcomma " 192.168.1.1 ,10.0.0.1"%string); [reflexivity | discriminate].
Defined.

(** A first entry of [x-forwarded-for] that is blank gives the empty address:
    the header is not empty, so it decides, and [x-real-ip] and
    [cf-connecting-ip] are not consulted. *)
Theorem getClientIP_blank_first_entry (request : NextRequest) blank tail :
  allChars isWhiteSpace blank = true ->
  get request "x-forwarded-for" = Some (blank ++ String "," tail)%string ->
  getClientIP request = Some EmptyString.
Proof.
  intros Hblank Hv. unfold getClientIP.
  rewrite (whenTruthy_Some _ _ Hv).
  - rewrite (split_app "," blank tail (blank_no_comma _ Hblank)). cbn.
    by rewrite (trim_blank _ Hblank).
  - by destruct blank.
Qed.

Lemma getClientIP_blank_first_entry_witness :
  getClientIP
    {| headers := {[ "x-forwarded-for" := ", 10.0.0.1";
                     "x-real-ip" := "192.168.1.2" ]}%string |}
  = Some EmptyString.
Proof.
  apply (getClientIP_blank_first_entry _ EmptyString " 10.0.0.1");
    reflexivity.
Defined.

End ClientIPMoreFacts.

(** ** Files from data URLs *)

Module StorageFacts.

Import JsString Storage JsStringFacts.

Lemma truthy_true s : truthy s = true <-> s <> EmptyString.
Proof. destruct s; cbn; split; congruence. Qed.

Lemma stripPrefix_app pre s : stripPrefix pre (pre ++ s) = Some s.
Proof.
  induction pre as [|c pre IH]; [by destruct s|].
  change (String c pre ++ s)%string with (String c (pre ++ s)).
  cbn [stripPrefix]. by rewrite Ascii.eqb_refl.
Qed.

Lemma stripPrefix_Some pre : forall s rest,
  stripPrefix pre s = Some rest -> s = (pre ++ rest)%string.
Proof.
  induction pre as [|c pre IH]; intros s rest.
  - change (EmptyString ++ rest)%string with rest.
    destruct s; cbn [stripPrefix]; by intros [= ->].
  - destruct s as [|b s]; cbn [stripPrefix]; [done|].
    destruct (Ascii.eqb_spec c b) as [->|]; [|done].
    intros H. apply IH in H as ->. done.
Qed.

Lemma span_spec p s :
  s = ((span p s).1 ++ (span p s).2)%string /\
  allChars p (span p s).1 = true /\
  stopsAt p (span p s).2.
Proof.
  induction s as [|c s (Hs & Hall & Hstop)]; [done|].
  cbn [span]. destruct (p c) eqn:Hc; [|done].
  destruct (span p s) as [taken rest]. cbn in *.
  split; [|split; [|done]].
  - change (String c taken ++ rest)%string with (String c (taken ++ rest)).
    by rewrite <- Hs.
  - by rewrite Hc.
Qed.

Lemma span_app p taken rest :
  allChars p taken = true -> stopsAt p rest ->
  span p (taken ++ rest) = (taken, rest).
Proof.
  induction taken as [|c taken IH]; intros Hall Hstop.
  - change (EmptyString ++ rest)%string with rest.
    destruct rest as [|c rest]; [done|]. cbn in *. by rewrite Hstop.
  - change (String c taken ++ rest)%string with (String c (taken ++ rest)).
    cbn [allChars] in Hall. apply andb_prop in Hall as [Hc Hall].
    cbn [span]. by rewrite Hc, (IH Hall Hstop).
Qed.

Lemma allChars_impl (p q : ascii -> bool) s :
  (forall c, p c = true -> q c = true) ->
  allChars p s = true -> allChars q s = true.
Proof.
  intros Hpq. induction s as [|c s IH]; [done|]. cbn [allChars].
  intros H. apply andb_prop in H as [Hc H]. by rewrite (Hpq c Hc), (IH H).
Qed.

Lemma allChars_hasChar p c s :
  allChars p s = true -> p c = false -> hasChar c s = false.
Proof.
  intros Hall Hc. induction s as [|c' s IH]; [done|]. cbn [allChars] in Hall.
  apply andb_prop in Hall as [Hc' Hall]. cbn [hasChar]. rewrite (IH Hall).
  destruct (Ascii.eqb_spec c' c) as [->|]; [congruence | done].
Qed.

Lemma isWordChar_isSubtypeChar c : isWordChar c = true -> isSubtypeChar c = true.
Proof. unfold isSubtypeChar. by intros ->. Qed.

Lemma matchGeneral_shape type sub data :
  mediaType type sub ->
  matchGeneral (dataUrl type sub data) =
    if dataOk data
    then Some {| group1 := (type ++ "/" ++ sub)%string; group2 := data |}
    else None.
Proof.
  intros (Ht & Htype & Hs & Hsub). unfold matchGeneral, dataUrl.
  rewrite stripPrefix_app. cbn [mbind option_bind].
  rewrite (span_app isWordChar type) by done.
  apply truthy_true in Ht as ->.
  rewrite (stripPrefix_app "/"). cbn [mbind option_bind].
  rewrite (span_app isSubtypeChar sub) by done.
  apply truthy_true in Hs as ->.
  unfold matchData. rewrite stripPrefix_app. done.
Qed.

Lemma matchData_inv mime rest m :
  matchData mime rest = Some m ->
  exists data,
    rest = (";base64," ++ data)%string /\ dataOk data = true /\
    m = {| group1 := mime; group2 := data |}.
Proof.
  unfold matchData. destruct (stripPrefix ";base64," rest) as [data|] eqn:Hd;
    [|done]. cbn [mbind option_bind]. fold (dataOk data).
  destruct (dataOk data) eqn:Hok; [|done]. intros [= <-].
  exists data. by apply stripPrefix_Some in Hd.
Qed.

Lemma matchGeneral_inv s m :
  matchGeneral s = Some m ->
  exists type sub data,
    mediaType type sub /\ dataOk data = true /\
    s = dataUrl type sub data /\
    m = {| group1 := (type ++ "/" ++ sub)%string; group2 := data |}.
Proof.
  unfold matchGeneral.
  destruct (stripPrefix "data:" s) as [s1|] eqn:H1; [|done].
  cbn [mbind option_bind].
  pose proof (span_spec isWordChar s1) as (Hs1 & Htype & _).
  destruct (span isWordChar s1) as [type rest1]. cbn [fst snd] in *.
  destruct (truthy type) eqn:Ht; [|done].
  destruct (stripPrefix "/" rest1) as [rest2|] eqn:H2; [|done].
  cbn [mbind option_bind].
  pose proof (span_spec isSubtypeChar rest2) as (Hs2 & Hsub & _).
  destruct (span isSubtypeChar rest2) as [sub rest3]. cbn [fst snd] in *.
  destruct (truthy sub) eqn:Hs; [|done].
  intros Hm. apply matchData_inv in Hm as (data & -> & Hok & ->).
  exists type, sub, data. split; [|split; [done|split; [|done]]].
  - split; [by apply truthy_true|]. split; [done|].
    split; [by apply truthy_true | done].
  - apply stripPrefix_Some in H1, H2. unfold dataUrl.
    by rewrite H1, Hs1, H2, Hs2.
Qed.

Lemma matchImage_inv s m :
  matchImage s = Some m ->
  exists sub data,
    sub <> EmptyString /\ allChars isWordChar sub = true /\
    dataOk data = true /\
    s = dataUrl "image" sub data /\
    m = {| group1 := ("image" ++ "/" ++ sub)%string; group2 := data |}.
Proof.
  unfold matchImage.
  destruct (stripPrefix "data:" s) as [s1|] eqn:H1; [|done].
  cbn [mbind option_bind].
  destruct (stripPrefix "image/" s1) as [s2|] eqn:H2; [|done].
  cbn [mbind option_bind].
  pose proof (span_spec isWordChar s2) as (Hs2 & Hsub & _).
  destruct (span isWordChar s2) as [sub rest]. cbn [fst snd] in *.
  destruct (truthy sub) eqn:Hs; [|done].
  intros Hm. apply matchData_inv in Hm as (data & -> & Hok & ->).
  exists sub, data. split; [by apply truthy_true|]. split; [done|].
  split; [done|]. split; [|done].
  apply stripPrefix_Some in H1, H2. unfold dataUrl.
  by rewrite H1, H2, Hs2.
Qed.

(** The image pattern adds nothing: whatever it matches, the general pattern
    matches with the same two groups. The function does what it would do with
    the general pattern alone. *)
Theorem image_pattern_is_subsumed s m :
  matchImage s = Some m -> matchGeneral s = Some m.
Proof.
  intros Hm. apply matchImage_inv in Hm as (sub & data & Hne & Hsub & Hok & -> & ->).
  rewrite matchGeneral_shape, Hok; [done|].
  split; [done|]. split; [done|]. split; [done|].
  revert Hsub. apply allChars_impl, isWordChar_isSubtypeChar.
Qed.

Lemma image_pattern_is_subsumed_witness :
  matchGeneral "data:image/png;base64,iVBORw0KGgo="
  = Some {| group1 := "image/png"; group2 := "iVBORw0KGgo=" |}.
Proof.
  apply (image_pattern_is_subsumed "data:image/png;base64,iVBORw0KGgo=").
  reflexivity.
Defined.

(** The two attempts of [generateFileFromBase64] together. *)
Lemma matches_inv s m :
  match matchImage s with Some m => Some m | None => matchGeneral s end = Some m ->
  exists type sub data,
    mediaType type sub /\ dataOk data = true /\
    s = dataUrl type sub data /\
    m = {| group1 := (type ++ "/" ++ sub)%string; group2 := data |}.
Proof.
  destruct (matchImage s) as [m'|] eqn:Hm; [|apply matchGeneral_inv].
  intros [= ->].
  apply matchImage_inv in Hm as (sub & data & Hne & Hsub & Hok & -> & ->).
  exists "image"%string, sub, data. split; [|done].
  split; [done|]. split; [done|]. split; [done|].
  revert Hsub. apply allChars_impl, isWordChar_isSubtypeChar.
Qed.

Lemma matches_shape type sub data :
  mediaType type sub ->
  match matchImage (dataUrl type sub data) with
  | Some m => Some m
  | None => matchGeneral (dataUrl type sub data)
  end =
  if dataOk data
  then Some {| group1 := (type ++ "/" ++ sub)%string; group2 := data |}
  else None.
Proof.
  intros Hmedia. destruct (matchImage (dataUrl type sub data)) as [m|] eqn:Hm;
    [|by apply matchGeneral_shape].
  rewrite <- (matchGeneral_shape type sub data Hmedia).
  apply matchImage_inv in Hm as (sub' & data' & Hne & Hsub & Hok & Hs & ->).
  rewrite Hs, matchGeneral_shape, Hok; [done|].
  split; [done|]. split; [done|]. split; [done|].
  revert Hsub. apply allChars_impl, isWordChar_isSubtypeChar.
Qed.

(** The extension is the subtype: the second piece of the media type. *)
Lemma ext_of_mediaType type sub :
  mediaType type sub ->
  split "/" (type ++ "/" ++ sub) !! 1%nat = Some sub.
Proof.
  intros (_ & Htype & _ & Hsub).
  change (type ++ "/" ++ sub)%string with (type ++ String "/" sub)%string.
  rewrite ClientIPMoreFacts.split_app
    by (by apply (allChars_hasChar isWordChar)).
  rewrite ClientIPMoreFacts.split_whole
    by (by apply (allChars_hasChar isSubtypeChar)).
  done.
Qed.

Section Generate.

Variable bufferFromBase64 : string -> list Z.

Lemma generate_of_dataUrl uuid type sub data :
  mediaType type sub ->
  generateFileFromBase64 bufferFromBase64 uuid (dataUrl type sub data) =
    if dataOk data then
      inr {| fileName := (uuid ++ "." ++ sub)%string;
             buffer := bufferFromBase64 data;
             ext := Some sub;
             contentLength := length (bufferFromBase64 data) |}
    else inl "Invalid Base64 format"%string.
Proof.
  intros Hmedia. unfold generateFileFromBase64.
  rewrite (matches_shape type sub data Hmedia).
  destruct (dataOk data); [|done]. cbn [group1 group2].
  by rewrite (ext_of_mediaType type sub Hmedia).
Qed.

Lemma generate_inv uuid s f :
  generateFileFromBase64 bufferFromBase64 uuid s = inr f ->
  exists type sub data,
    mediaType type sub /\ dataOk data = true /\
    s = dataUrl type sub data /\
    f = {| fileName := (uuid ++ "." ++ sub)%string;
           buffer := bufferFromBase64 data;
           ext := Some sub;
           contentLength := length (bufferFromBase64 data) |}.
Proof.
  unfold generateFileFromBase64.
  destruct (match matchImage s with Some m => Some m | None => matchGeneral s end)
    as [m|] eqn:Hm; [|done].
  apply matches_inv in Hm as (type & sub & data & Hmedia & Hok & -> & ->).
  cbn [group1 group2]. rewrite (ext_of_mediaType type sub Hmedia).
  intros [= <-]. by exists type, sub, data.
Qed.

(** [generateFileFromBase64] returns a file exactly for the strings
    [data:<type>/<subtype>;base64,<data>] with a type of word characters, a
    subtype of word characters, hyphens, plus signs and dots, and data that
    is not empty and has no line terminator. The extension is then the
    subtype, the name is the random identifier, a dot and the extension, the
    buffer is the decoded data and the content length is its length. For
    every other string it throws ["Invalid Base64 format"]. *)
Theorem generateFileFromBase64_iff uuid s :
  (forall f,
     generateFileFromBase64 bufferFromBase64 uuid s = inr f <->
     exists type sub data,
       mediaType type sub /\ dataOk data = true /\
       s = dataUrl type sub data /\
       f = {| fileName := (uuid ++ "." ++ sub)%string;
              buffer := bufferFromBase64 data;
              ext := Some sub;
              contentLength := length (bufferFromBase64 data) |}) /\
  (forall message,
     generateFileFromBase64 bufferFromBase64 uuid s = inl message ->
     message = "Invalid Base64 format"%string).
Proof.
  split.
  - intros f. split; [apply generate_inv|].
    intros (type & sub & data & Hmedia & Hok & -> & ->).
    by rewrite (generate_of_dataUrl uuid type sub data Hmedia), Hok.
  - intros message. unfold generateFileFromBase64.
    destruct (match matchImage s with Some m => _ | None => _ end);
      [done | by intros [= <-]].
Qed.

(** The name of the file has no path separator of its own: the extension is
    made of word characters, hyphens, plus signs and dots only, so the name
    has a slash or a backslash only if the random identifier has one. *)
Theorem fileName_has_no_separator uuid s f :
  generateFileFromBase64 bufferFromBase64 uuid s = inr f ->
  exists e,
    ext f = Some e /\
    fileName f = (uuid ++ "." ++ e)%string /\
    e <> EmptyString /\
    allChars isSubtypeChar e = true /\
    hasChar "/" (fileName f) = hasChar "/" uuid /\
    hasChar "\" (fileName f) = hasChar "\" uuid.
Proof.
  intros Hf. apply generate_inv in Hf
    as (type & sub & data & (_ & _ & Hne & Hsub) & _ & _ & ->).
  exists sub. cbn [ext fileName]. split; [done|]. split; [done|].
  split; [done|]. split; [done|].
  rewrite !ClientIPMoreFacts.hasChar_app.
  rewrite !(allChars_hasChar isSubtypeChar _ sub Hsub) by done.
  cbn. by rewrite !orb_false_r.
Qed.

(** Data that is empty, or that has a line break in it, as base64 wrapped
    into lines has, is refused, whatever the media type. *)
Theorem wrapped_data_is_rejected uuid type sub data :
  mediaType type sub ->
  data = EmptyString \/ allChars isDot data = false ->
  generateFileFromBase64 bufferFromBase64 uuid (dataUrl type sub data) =
    inl "Invalid Base64 format"%string.
Proof.
  intros Hmedia Hdata. rewrite (generate_of_dataUrl uuid type sub data Hmedia).
  unfold dataOk. destruct Hdata as [-> | ->]; [done|].
  by rewrite andb_false_r.
Qed.

End Generate.

Lemma generateFileFromBase64_iff_witness :
  generateFileFromBase64 Bytes.ofString "0b5c-77"
    (dataUrl "application" "vnd.ms-excel" "AAAA")
  = inr {| fileName := "0b5c-77.vnd.ms-excel";
           buffer := [65; 65; 65; 65];
           ext := Some "vnd.ms-excel"%string;
           contentLength := 4 |}.
Proof.
  apply (proj1 (generateFileFromBase64_iff Bytes.ofString "0b5c-77"
                  (dataUrl "application" "vnd.ms-excel" "AAAA"))).
  exists "application"%string, "vnd.ms-excel"%string, "AAAA"%string.
  repeat split; discriminate.
Defined.

Lemma fileName_has_no_separator_witness :
  let file := {| fileName := "0b5c-77.svg+xml"; buffer := [65; 65];
                 ext := Some "svg+xml"%string; contentLength := 2 |} in
  exists e,
    ext file = Some e /\
    fileName file = ("0b5c-77" ++ "." ++ e)%string /\
    e <> EmptyString /\
    allChars isSubtypeChar e = true /\
    hasChar "/" (fileName file) = hasChar "/" "0b5c-77" /\
    hasChar "\" (fileName file) = hasChar "\" "0b5c-77".
Proof.
  apply (fileName_has_no_separator Bytes.ofString "0b5c-77"
           "data:image/svg+xml;base64,AA").
  reflexivity.
Defined.

Lemma wrapped_data_is_rejected_witness :
  generateFileFromBase64 Bytes.ofString "0b5c-77"
    (dataUrl "image" "png" (String "A" (String "010" "B")))
  = inl "Invalid Base64 format"%string.
Proof.
  apply (wrapped_data_is_rejected Bytes.ofString "0b5c-77" "image" "png").
  - repeat split; discriminate.
  - right. reflexivity.
Defined.

End StorageFacts.
